(** * Route-tree reconciliation of the router (router.ts)

    A shallow embedding of [Router._navigate] and of the [_LoadSegments]
    class: the lock-step walk over the candidate and the previous route
    tree, the collection of deactivation paths, the guard chains and the
    guarded commit.

    The mutable outlet hierarchy is a tree of objects in the program (every
    outlet registers itself in one registry, every load installs a fresh
    registry), so it is embedded as a tree value that each operation takes
    and gives back; an exception gives back the store as it stood when it
    was thrown.  Promises are embedded by how they settle. *)

From Stdlib Require Import List String Bool Arith Lia Permutation.
Import ListNotations.
Open Scope string_scope.
Open Scope list_scope.

(** ** Values *)

(** What a promise, or a synchronous call, can end in. *)
Inductive Error : Type :=
| BaseException (message : string)
| TypeError (message : string)
| Failure (reason : string).

(** A promise, by the way it settles. [Pending] is a promise that never
    settles. *)
Inductive Promise (A : Type) : Type :=
| Resolved (a : A)
| Rejected (e : Error)
| Pending.

Arguments Resolved {A} a.
Arguments Rejected {A} e.
Arguments Pending {A}.

(** [p.then(f)] for a callback that may itself return a promise. *)
Definition then_ {A B : Type} (p : Promise A) (f : A -> Promise B) : Promise B :=
  match p with
  | Resolved a => f a
  | Rejected e => Rejected e
  | Pending => Pending
  end.

(** The values a navigation promise is observed to resolve with. *)
Inductive JsValue : Type :=
| VUndefined
| VBool (b : bool).

(** ** Trees of segments (./segments) *)

Record UrlSegment : Type := mkUrlSegment {
  segment : string;
  us_parameters : list (string * string);
  us_outlet : option string
}.

Record RouteSegment : Type := mkRouteSegment {
  urlSegments : list UrlSegment;
  parameters : list (string * string);
  outlet : string;
  _type : string
}.

#[warnings="-register-all"]
Inductive TreeNode (T : Type) : Type :=
| Node (value : T) (children : list (TreeNode T)).

Arguments Node {T} value children.

Definition value {T} (n : TreeNode T) : T := match n with Node v _ => v end.
Definition children {T} (n : TreeNode T) : list (TreeNode T) :=
  match n with Node _ cs => cs end.

Record Tree (T : Type) : Type := mkTree { _root : TreeNode T }.

Arguments mkTree {T} _root.
Arguments _root {T} t.

Definition UrlTree := Tree UrlSegment.
Definition RouteTree := Tree RouteSegment.

Definition rootNode {T} (tree : Tree T) : TreeNode T := _root tree.

(** Modelled from the spec: the constant DEFAULT_OUTLET_NAME lives in
    ./constants, which is not among the sources; it is one fixed slot name. *)
Definition DEFAULT_OUTLET_NAME : string := "__DEFAULT".

Fixpoint list_eqb {A} (eqb : A -> A -> bool) (l1 l2 : list A) : bool :=
  match l1, l2 with
  | [], [] => true
  | a :: l1', b :: l2' => eqb a b && list_eqb eqb l1' l2'
  | _, _ => false
  end.

Definition param_eqb (p q : string * string) : bool :=
  String.eqb (fst p) (fst q) && String.eqb (snd p) (snd q).

Definition option_string_eqb (a b : option string) : bool :=
  match a, b with
  | Some x, Some y => String.eqb x y
  | None, None => true
  | _, _ => false
  end.

Definition UrlSegment_eqb (a b : UrlSegment) : bool :=
  String.eqb (segment a) (segment b)
  && list_eqb param_eqb (us_parameters a) (us_parameters b)
  && option_string_eqb (us_outlet a) (us_outlet b).

(** Modelled from the spec: [equalSegments] is imported from ./segments,
    which is not among the sources.  Two segments are equal iff their slot
    name, resource type and address tokens (path pieces and parameters) are
    pairwise equal; a segment is never equal to an absent one. *)
Definition equalSegments (a : RouteSegment) (b : option RouteSegment) : bool :=
  match b with
  | None => false
  | Some b =>
      String.eqb (outlet a) (outlet b)
      && String.eqb (_type a) (_type b)
      && list_eqb UrlSegment_eqb (urlSegments a) (urlSegments b)
      && list_eqb param_eqb (parameters a) (parameters b)
  end.

(** ** Components and their optional hooks *)

(** A component instance.  [cid] is its identity; a hook that the instance
    does not implement is [None] / [false] (what [hasLifecycleHook] probes).
    The guard is given the previous and the candidate tree. *)
Record Component : Type := mkComponent {
  cid : nat;
  routerCanDeactivate : option (option RouteTree -> RouteTree -> Promise bool);
  routerOnActivate : bool
}.

(** An element of [Object[]]: a component or [null] (the [loadedComponent]
    of an outlet that holds nothing). *)
Abbreviation Obj := (option Component) (only parsing).

(** Modelled from the spec: the capability probe of ./lifecycle_reflector,
    which is not among the sources: whether the object implements the
    optional hook; [null] implements none. *)
Definition hasCanDeactivate (p : Obj) : bool :=
  match p with
  | Some c => match routerCanDeactivate c with Some _ => true | None => false end
  | None => false
  end.

(** ** What the reconciliation does to the outside, in order *)

Inductive Event : Type :=
| EvCanDeactivate (c : nat) (answer : Promise bool)
| EvUnload (c : nat)
| EvLoad (s : RouteSegment) (c : nat)
| EvOnActivate (c : nat)
| EvLocationGo (url : string)
| EvChange.

Definition is_guard (e : Event) : bool :=
  match e with EvCanDeactivate _ _ => true | _ => false end.

Definition is_mutation (e : Event) : bool :=
  match e with
  | EvUnload _ | EvLoad _ _ | EvOnActivate _ => true
  | _ => false
  end.

(** ** The outlet hierarchy *)

(** A [RouterOutlet] as router.ts reads it: the loaded component, if any,
    and the registry installed by the last load ([undefined] before the
    first one).  A [RouterOutletMap] is its [_outlets] object, keys in
    insertion order (slot names are taken not to be array indices, which a
    JS object would enumerate first, nor names that every object inherits,
    such as "constructor"). *)
#[warnings="-register-all"]
Inductive RouterOutlet : Type :=
| mkRouterOutlet (_loaded : option Component)
                 (outletMap : option (list (string * RouterOutlet))).

Abbreviation RouterOutletMap := (list (string * RouterOutlet)) (only parsing).

Definition _loaded (o : RouterOutlet) : option Component :=
  match o with mkRouterOutlet l _ => l end.
Definition outletMap (o : RouterOutlet) : option RouterOutletMap :=
  match o with mkRouterOutlet _ m => m end.

Definition isLoaded (o : RouterOutlet) : bool :=
  match _loaded o with Some _ => true | None => false end.
Definition loadedComponent (o : RouterOutlet) : Obj := _loaded o.

(** [map[k]] on a JS object used as a dictionary. *)
Fixpoint lookup {V} (k : string) (m : list (string * V)) : option V :=
  match m with
  | [] => None
  | (k', v) :: m' => if String.eqb k k' then Some v else lookup k m'
  end.

(** [map[k] = v]: an existing key keeps its place. *)
Fixpoint assign {V} (k : string) (v : V) (m : list (string * V)) : list (string * V) :=
  match m with
  | [] => [(k, v)]
  | (k', v') :: m' =>
      if String.eqb k k' then (k, v) :: m' else (k', v') :: assign k v m'
  end.

(** [delete map[k]]. *)
Fixpoint delete {V} (k : string) (m : list (string * V)) : list (string * V) :=
  match m with
  | [] => []
  | (k', v') :: m' =>
      if String.eqb k k' then m' else (k', v') :: delete k m'
  end.

Definition registerOutlet (name : string) (o : RouterOutlet)
    (m : RouterOutletMap) : RouterOutletMap :=
  assign name o m.

(** ** The state of one reconciliation *)

(** The fields of [_LoadSegments], and [trace]: the calls made so far to
    guards, outlets, the location and the change emitter (an observation,
    not a field of the class). *)
Record LoadSegments : Type := mkLoadSegments {
  currTree : RouteTree;
  prevTree : option RouteTree;
  deactivations : list (list Obj);
  performMutation : bool;
  trace : list Event
}.

Definition new_LoadSegments (curr : RouteTree) (prev : option RouteTree)
    (tr : list Event) : LoadSegments :=
  mkLoadSegments curr prev [] true tr.

Definition set_performMutation (b : bool) (s : LoadSegments) : LoadSegments :=
  mkLoadSegments (currTree s) (prevTree s) (deactivations s) b (trace s).

Definition push_deactivation (path : list Obj) (s : LoadSegments) : LoadSegments :=
  mkLoadSegments (currTree s) (prevTree s) (deactivations s ++ [path])
                 (performMutation s) (trace s).

Definition record (e : Event) (s : LoadSegments) : LoadSegments :=
  mkLoadSegments (currTree s) (prevTree s) (deactivations s)
                 (performMutation s) (trace s ++ [e]).

(** How a synchronous call ends. *)
Inductive Completion : Type :=
| Normal
| Throw (e : Error).

Definition undefined_outlets : Error :=
  TypeError "Cannot read property '_outlets' of undefined".

Section ForEach.
Variables (S V : Type).
Variable f : V -> S -> Completion * V * S.

(** [StringMapWrapper.forEach] over a dictionary whose values the
    callback updates in place; a throw leaves the rest unvisited. *)
Fixpoint forEachValue (m : list (string * V)) (s : S)
    : Completion * list (string * V) * S :=
  match m with
  | [] => (Normal, [], s)
  | (k, v) :: rest =>
      match f v s with
      | (Normal, v', s1) =>
          let '(r, rest', s2) := forEachValue rest s1 in
          (r, (k, v') :: rest', s2)
      | (Throw e, v', s1) => (Throw e, (k, v') :: rest, s1)
      end
  end.
End ForEach.

Arguments forEachValue {S V} f m s.

(** Modelled from the spec: [RouterOutlet.unload] belongs to
    ./directives/router_outlet, which is not among the sources: it tears
    the mounted resource down and leaves the slot empty. *)
Definition unload (o : RouterOutlet) : RouterOutlet :=
  mkRouterOutlet None (outletMap o).

(** [unloadOutlet] for an outlet that is present. *)
Fixpoint unloadOutlet_present (outlet : RouterOutlet) (components : list Obj)
    (s : LoadSegments) {struct outlet} : Completion * RouterOutlet * LoadSegments :=
  match outlet with
  | mkRouterOutlet None _ => (Normal, outlet, s)
  | mkRouterOutlet (Some c) None => (Throw undefined_outlets, outlet, s)
  | mkRouterOutlet (Some c) (Some m) =>
      match forEachValue (fun v s' => unloadOutlet_present v components s') m s with
      | (Throw e, m', s1) => (Throw e, mkRouterOutlet (Some c) (Some m'), s1)
      | (Normal, m', s1) =>
          if performMutation s1
          then (Normal, unload (mkRouterOutlet (Some c) (Some m')),
                record (EvUnload (cid c)) s1)
          else (Normal, mkRouterOutlet (Some c) (Some m'),
                push_deactivation (components ++ [Some c]) s1)
      end
  end.

Definition unloadOutlet (outlet : option RouterOutlet) (components : list Obj)
    (s : LoadSegments) : Completion * option RouterOutlet * LoadSegments :=
  match outlet with
  | None => (Normal, None, s)
  | Some o =>
      let '(r, o', s') := unloadOutlet_present o components s in (r, Some o', s')
  end.

(** ** The walk *)

Definition default_outlet_missing : Error :=
  BaseException "Cannot find default outlet".
Definition outlet_missing (name : string) : Error :=
  BaseException ("Cannot find the outlet " ++ name).

(** [getOutlet]; reading [_outlets] of an undefined registry is a
    TypeError. *)
Definition getOutlet (om : option RouterOutletMap) (seg : RouteSegment)
    : Error + RouterOutlet :=
  match om with
  | None => inl undefined_outlets
  | Some m =>
      match lookup (outlet seg) m with
      | Some o => inr o
      | None =>
          if String.eqb (outlet seg) DEFAULT_OUTLET_NAME
          then inl default_outlet_missing
          else inl (outlet_missing (outlet seg))
      end
  end.

(** The outlet object found under [k] is the one the callee has updated. *)
Definition put (k : string) (o : option RouterOutlet) (m : RouterOutletMap)
    : RouterOutletMap :=
  match o with
  | Some o' => assign k o' m
  | None => m
  end.

Definition put_in (k : string) (o : RouterOutlet) (om : option RouterOutletMap)
    : option RouterOutletMap :=
  option_map (assign k o) om.

Definition fresh_outlet : RouterOutlet := mkRouterOutlet None None.

(** The registry after the outlets of a template have registered
    themselves in it, in template order. *)
Definition registered (slots : list string) : RouterOutletMap :=
  fold_left (fun m name => registerOutlet name fresh_outlet m) slots [].

(** Modelled from the spec: [RouterOutlet.load] belongs to
    ./directives/router_outlet, which is not among the sources: it mounts
    the new resource in the slot and installs the registry it is given, in
    which the outlets of the new resource's template register. *)
Definition RouterOutlet_load (o : RouterOutlet) (instance : Component)
    (slots : list string) : RouterOutlet :=
  mkRouterOutlet (Some instance) (Some (registered slots)).

Definition WalkResult : Type :=
  (Completion * option RouterOutletMap * LoadSegments)%type.

Section Walk.
(** The instantiation collaborator: the instance that the factory of a
    segment creates, and the slot names its template declares. *)
Variable instantiate : RouteSegment -> Component.
Variable template : RouteSegment -> list string.

Definition loadNewSegment (curr : RouteSegment) (prev : option RouteSegment)
    (o : RouterOutlet) (s : LoadSegments)
    : Component * RouterOutlet * LoadSegments :=
  let instance := instantiate curr in
  let o' := RouterOutlet_load o instance (template curr) in
  let s1 := record (EvLoad curr (cid instance)) s in
  let s2 := if routerOnActivate instance
            then record (EvOnActivate (cid instance)) s1 else s1 in
  (instance, o', s2).

(** [loadSegments], with [rec] standing for [loadChildSegments] at the
    same candidate node. *)
Definition loadSegments_with
    (rec : option (TreeNode RouteSegment) -> option RouterOutletMap ->
           list Obj -> LoadSegments -> WalkResult)
    (currNode : TreeNode RouteSegment)
    (prevNode : option (TreeNode RouteSegment))
    (parentOutletMap : option RouterOutletMap)
    (components : list Obj) (s : LoadSegments) : WalkResult :=
  let curr := value currNode in
  let prev := option_map (@value RouteSegment) prevNode in
  match getOutlet parentOutletMap curr with
  | inl e => (Throw e, parentOutletMap, s)
  | inr o =>
      if equalSegments curr prev then
        let '(r, m', s') :=
          rec prevNode (outletMap o) (components ++ [loadedComponent o]) s in
        (r, put_in (outlet curr) (mkRouterOutlet (_loaded o) m') parentOutletMap, s')
      else
        match unloadOutlet_present o components s with
        | (Throw e, o1, s1) => (Throw e, put_in (outlet curr) o1 parentOutletMap, s1)
        | (Normal, o1, s1) =>
            if performMutation s1 then
              let '(instance, o2, s2) := loadNewSegment curr prev o1 s1 in
              let '(r, m', s3) :=
                rec prevNode (outletMap o2) (components ++ [Some instance]) s2 in
              (r, put_in (outlet curr) (mkRouterOutlet (_loaded o2) m') parentOutletMap, s3)
            else (Normal, put_in (outlet curr) o1 parentOutletMap, s1)
        end
  end.

(** The dictionary of the previous children by slot name. *)
Definition prevChildrenOf (prevNode : option (TreeNode RouteSegment))
    : list (string * TreeNode RouteSegment) :=
  match prevNode with
  | Some p => fold_left (fun m c => assign (outlet (value c)) c m) (children p) []
  | None => []
  end.

Section ForEachChild.
Variable visit : TreeNode RouteSegment -> option (TreeNode RouteSegment) ->
                 option RouterOutletMap -> LoadSegments -> WalkResult.

(** [currNode.children.forEach]: visit the child against the previous
    child of the same slot, then drop that slot from the dictionary. *)
Fixpoint forEachChild (cs : list (TreeNode RouteSegment))
    (prevChildren : list (string * TreeNode RouteSegment))
    (om : option RouterOutletMap) (s : LoadSegments)
    : Completion * list (string * TreeNode RouteSegment)
      * option RouterOutletMap * LoadSegments :=
  match cs with
  | [] => (Normal, prevChildren, om, s)
  | c :: cs' =>
      match visit c (lookup (outlet (value c)) prevChildren) om s with
      | (Throw e, om1, s1) => (Throw e, prevChildren, om1, s1)
      | (Normal, om1, s1) =>
          forEachChild cs' (delete (outlet (value c)) prevChildren) om1 s1
      end
  end.
End ForEachChild.

(** The last loop of [loadChildSegments]: the previous children that no
    candidate child has claimed. *)
Fixpoint unloadRemaining (prevChildren : list (string * TreeNode RouteSegment))
    (om : option RouterOutletMap) (components : list Obj) (s : LoadSegments)
    : WalkResult :=
  match prevChildren with
  | [] => (Normal, om, s)
  | (k, _) :: rest =>
      match om with
      | None => (Throw undefined_outlets, None, s)
      | Some m =>
          match unloadOutlet (lookup k m) components s with
          | (Throw e, o', s1) => (Throw e, Some (put k o' m), s1)
          | (Normal, o', s1) =>
              unloadRemaining rest (Some (put k o' m)) components s1
          end
      end
  end.

Fixpoint loadChildSegments (currNode : TreeNode RouteSegment)
    (prevNode : option (TreeNode RouteSegment))
    (om : option RouterOutletMap) (components : list Obj)
    (s : LoadSegments) {struct currNode} : WalkResult :=
  match currNode with
  | Node _ cs =>
      match forEachChild
              (fun c p om' s' =>
                 loadSegments_with (loadChildSegments c) c p om' components s')
              cs (prevChildrenOf prevNode) om s with
      | (Throw e, _, om1, s1) => (Throw e, om1, s1)
      | (Normal, remaining, om1, s1) =>
          unloadRemaining remaining om1 components s1
      end
  end.

Definition loadSegments := fun currNode =>
  loadSegments_with (loadChildSegments currNode) currNode.

End Walk.

(** ** The guard protocol *)

(** One [curr = curr.then(_ => ...)] of [checkCanDeactivatePath]: the
    callback runs only on a resolved [curr]; it asks the guard of [p], or
    hands the value on when [p] has none. *)
Definition deactivateStep (p : Obj) (curr : Promise bool) (s : LoadSegments)
    : Promise bool * LoadSegments :=
  match curr with
  | Resolved v =>
      match p with
      | Some c =>
          match routerCanDeactivate c with
          | Some guard =>
              let answer := guard (prevTree s) (currTree s) in
              (answer, record (EvCanDeactivate (cid c) answer) s)
          | None => (Resolved v, s)
          end
      | None => (Resolved v, s)
      end
  | Rejected e => (Rejected e, s)
  | Pending => (Pending, s)
  end.

Fixpoint deactivateChain (ps : list Obj) (curr : Promise bool) (s : LoadSegments)
    : Promise bool * LoadSegments :=
  match ps with
  | [] => (curr, s)
  | p :: rest =>
      let '(curr', s') := deactivateStep p curr s in
      deactivateChain rest curr' s'
  end.

Definition checkCanDeactivatePath (path : list Obj) (s : LoadSegments)
    : Promise bool * LoadSegments :=
  deactivateChain (rev path) (Resolved true) s.

(** [this.deactivations.map(r => this.checkCanDeactivatePath(r))].  The
    chains of different paths run interleaved in the program; the trace
    lists them path by path. *)
Fixpoint checkAll (paths : list (list Obj)) (s : LoadSegments)
    : list (Promise bool) * LoadSegments :=
  match paths with
  | [] => ([], s)
  | path :: rest =>
      let '(a, s1) := checkCanDeactivatePath path s in
      let '(answers, s2) := checkAll rest s1 in
      (a :: answers, s2)
  end.

(** [PromiseWrapper.all]: rejected as soon as one is, otherwise pending
    while one is. *)
Fixpoint all_rejected {A} (ps : list (Promise A)) : option Error :=
  match ps with
  | [] => None
  | Rejected e :: _ => Some e
  | _ :: rest => all_rejected rest
  end.

Fixpoint all_values {A} (ps : list (Promise A)) : option (list A) :=
  match ps with
  | [] => Some []
  | Resolved a :: rest => option_map (cons a) (all_values rest)
  | _ :: _ => None
  end.

Definition PromiseWrapper_all {A} (ps : list (Promise A)) : Promise (list A) :=
  match all_rejected ps with
  | Some e => Rejected e
  | None =>
      match all_values ps with
      | Some vs => Resolved vs
      | None => Pending
      end
  end.

(** [values.filter(v => v).length === values.length] *)
Definition all_consent (values : list bool) : bool :=
  Nat.eqb (List.length (filter (fun v => v) values)) (List.length values).

(** What a call that may throw gives. *)
Inductive Outcome (A : Type) : Type :=
| Returned (a : A)
| Thrown (e : Error).

Arguments Returned {A} a.
Arguments Thrown {A} e.

Section Reconciliation.
Variable instantiate : RouteSegment -> Component.
Variable template : RouteSegment -> list string.

Definition canDeactivate (currRoot : TreeNode RouteSegment)
    (prevRoot : option (TreeNode RouteSegment))
    (om : option RouterOutletMap) (rootComponent : Component)
    (s : LoadSegments)
    : Outcome (Promise bool) * option RouterOutletMap * LoadSegments :=
  let s0 := set_performMutation false s in
  match loadChildSegments instantiate template currRoot prevRoot om
                          [Some rootComponent] s0 with
  | (Throw e, om1, s1) => (Thrown e, om1, s1)
  | (Normal, om1, s1) =>
      let '(answers, s2) := checkAll (deactivations s1) s1 in
      (Returned (then_ (PromiseWrapper_all answers)
                       (fun values => Resolved (all_consent values))),
       om1, s2)
  end.

Definition load (parentOutletMap : option RouterOutletMap)
    (rootComponent : Component) (s : LoadSegments)
    : Outcome (Promise bool) * option RouterOutletMap * LoadSegments :=
  let prevRoot := option_map (@rootNode RouteSegment) (prevTree s) in
  let currRoot := rootNode (currTree s) in
  match canDeactivate currRoot prevRoot parentOutletMap rootComponent s with
  | (Thrown e, om1, s1) => (Thrown e, om1, s1)
  | (Returned (Resolved res), om1, s1) =>
      let s2 := set_performMutation true s1 in
      if res then
        match loadChildSegments instantiate template currRoot prevRoot om1
                                [Some rootComponent] s2 with
        | (Throw e, om2, s3) => (Returned (Rejected e), om2, s3)
        | (Normal, om2, s3) => (Returned (Resolved res), om2, s3)
        end
      else (Returned (Resolved res), om1, s2)
  | (Returned (Rejected e), om1, s1) => (Returned (Rejected e), om1, s1)
  | (Returned Pending, om1, s1) => (Returned Pending, om1, s1)
  end.

(** ** The router *)

(** The fields of [Router] that a navigation reads or writes, and
    [history]: the trace of everything done so far. *)
Record Router : Type := mkRouter {
  _prevTree : RouteTree;
  _urlTree : option UrlTree;
  _routerOutletMap : RouterOutletMap;
  _rootComponent : Component;
  history : list Event
}.

Definition urlTree (r : Router) : option UrlTree := _urlTree r.
Definition routeTree (r : Router) : RouteTree := _prevTree r.

(** The recognizer and the serializer, with the resolver and the root
    type of this router built in. *)
Variable recognize : UrlTree -> Promise RouteTree.
Variable serialize : UrlTree -> string.

Definition store_after (om : option RouterOutletMap) (r : Router)
    : RouterOutletMap :=
  match om with Some m => m | None => _routerOutletMap r end.

Definition _navigate (r : Router) (url : UrlTree) : Promise JsValue * Router :=
  let r1 := mkRouter (_prevTree r) (Some url) (_routerOutletMap r)
                     (_rootComponent r) (history r) in
  match recognize url with
  | Rejected e => (Rejected e, r1)
  | Pending => (Pending, r1)
  | Resolved currTree =>
      let s := new_LoadSegments currTree (Some (_prevTree r1)) (history r1) in
      match load (Some (_routerOutletMap r1)) (_rootComponent r1) s with
      | (Thrown e, om, s') =>
          (Rejected e,
           mkRouter (_prevTree r1) (Some url) (store_after om r1)
                    (_rootComponent r1) (trace s'))
      | (Returned (Rejected e), om, s') =>
          (Rejected e,
           mkRouter (_prevTree r1) (Some url) (store_after om r1)
                    (_rootComponent r1) (trace s'))
      | (Returned Pending, om, s') =>
          (Pending,
           mkRouter (_prevTree r1) (Some url) (store_after om r1)
                    (_rootComponent r1) (trace s'))
      | (Returned (Resolved updated), om, s') =>
          if updated then
            (Resolved VUndefined,
             mkRouter currTree (Some url) (store_after om r1)
                      (_rootComponent r1)
                      (trace s' ++ [EvLocationGo (serialize url); EvChange]))
          else
            (Resolved VUndefined,
             mkRouter (_prevTree r1) (Some url) (store_after om r1)
                      (_rootComponent r1) (trace s'))
      end
  end.

End Reconciliation.

(** ** The phases of [load], by name *)

Section Phases.
Variable instantiate : RouteSegment -> Component.
Variable template : RouteSegment -> list string.

(** The first walk of [canDeactivate]. *)
Definition dryRun (om : option RouterOutletMap) (rootComponent : Component)
    (s : LoadSegments) : WalkResult :=
  loadChildSegments instantiate template (rootNode (currTree s))
    (option_map (@rootNode RouteSegment) (prevTree s)) om
    [Some rootComponent] (set_performMutation false s).

Definition guardPhase (om : option RouterOutletMap) (rootComponent : Component)
    (s : LoadSegments) :=
  canDeactivate instantiate template (rootNode (currTree s))
    (option_map (@rootNode RouteSegment) (prevTree s)) om rootComponent s.

Definition commitRun (om : option RouterOutletMap) (rootComponent : Component)
    (s : LoadSegments) : WalkResult :=
  loadChildSegments instantiate template (rootNode (currTree s))
    (option_map (@rootNode RouteSegment) (prevTree s)) om
    [Some rootComponent] (set_performMutation true s).

(** Walking a tree against itself: no outlet changes, no path is
    collected, nothing is called, in either pass; whether the walk
    completes depends on the outlets only. *)
Definition inert (n : TreeNode RouteSegment) : Prop :=
  forall om, exists r, forall components s,
    loadChildSegments instantiate template n (Some n) om components s
    = (r, om, s).

End Phases.

(** ** Notions the properties are stated with *)

(** The reconciliation state [_navigate] starts from. *)
Definition starting (r : Router) (t : RouteTree) : LoadSegments :=
  new_LoadSegments t (Some (_prevTree r)) (history r).

(** The router with the candidate url tree stored and nothing else
    changed but the history. *)
Definition url_stored (r : Router) (url : UrlTree) (h : list Event) : Router :=
  mkRouter (_prevTree r) (Some url) (_routerOutletMap r) (_rootComponent r) h.

(** The error [getOutlet] throws for a slot name. *)
Definition cannot_find (name : string) : Error :=
  if String.eqb name DEFAULT_OUTLET_NAME
  then default_outlet_missing else outlet_missing name.

(** Sibling nodes bind distinct slots, at every level of the tree. *)
Fixpoint distinct (names : list string) : bool :=
  match names with
  | [] => true
  | name :: rest => negb (existsb (String.eqb name) rest) && distinct rest
  end.

Fixpoint unique_slots (n : TreeNode RouteSegment) : bool :=
  match n with
  | Node _ cs =>
      distinct (map (fun c => outlet (value c)) cs) && forallb unique_slots cs
  end.

Definition by_slot (c : TreeNode RouteSegment) : string * TreeNode RouteSegment :=
  (outlet (value c), c).

(** The components mounted in an outlet and below it, the deepest first and
    the outlet's own last (only loaded outlets are entered). *)
Fixpoint mounted_below (o : RouterOutlet) : list Component :=
  match o with
  | mkRouterOutlet (Some c) (Some m) =>
      flat_map (fun kv => mounted_below (snd kv)) m ++ [c]
  | mkRouterOutlet _ _ => []
  end.

(** The components whose guard a trace shows asked, in order. *)
Definition asked (evs : list Event) : list nat :=
  flat_map (fun e => match e with EvCanDeactivate c _ => [c] | _ => [] end) evs.

(** The components of a path that implement the guard, in path order. *)
Definition guarded (path : list Obj) : list nat :=
  flat_map (fun p => match p with
                     | Some c => if hasCanDeactivate p then [cid c] else []
                     | None => []
                     end) path.

(** Every guard on the path answers with a boolean: none rejects, none
    stays pending. *)
Definition answers_settle (prev : option RouteTree) (curr : RouteTree)
    (path : list Obj) : bool :=
  forallb (fun p => match p with
                    | Some c =>
                        match routerCanDeactivate c with
                        | Some guard =>
                            match guard prev curr with
                            | Resolved _ => true
                            | _ => false
                            end
                        | None => true
                        end
                    | None => true
                    end) path.

Definition is_resolved {A} (p : Promise A) : bool :=
  match p with Resolved _ => true | _ => false end.

(** [asks s s']: only the trace has changed, and only by guard calls. *)
Definition asks (s s' : LoadSegments) : Prop :=
  currTree s' = currTree s /\ prevTree s' = prevTree s /\
  performMutation s' = performMutation s /\
  deactivations s' = deactivations s /\
  exists calls, trace s' = trace s ++ calls /\ forallb is_guard calls = true.

(** [steps s s']: the trees and the mode are kept; the trace grows by
    mutations only, and by nothing with mutation disabled; the list of
    deactivation paths grows at its end, and not at all with mutation
    enabled. *)
Definition steps (s s' : LoadSegments) : Prop :=
  currTree s' = currTree s /\ prevTree s' = prevTree s /\
  performMutation s' = performMutation s /\
  (exists evs, trace s' = trace s ++ evs /\ forallb is_mutation evs = true /\
               (performMutation s = false -> evs = [])) /\
  (exists paths, deactivations s' = deactivations s ++ paths /\
                 (performMutation s = true -> paths = [])).

Definition walk_spec (w : option RouterOutletMap -> LoadSegments -> WalkResult)
    : Prop :=
  forall om s r om' s', w om s = (r, om', s') ->
    steps s s' /\ (performMutation s = false -> om' = om).

(** ** A concrete application: /team/:id/user/:name *)

Module TeamApp.

Definition seg (path : list string) (slot ty : string) : RouteSegment :=
  mkRouteSegment (map (fun p => mkUrlSegment p [] None) path) [] slot ty.

(** The root segment of [_createInitialTree]. *)
Definition rootSeg : RouteSegment :=
  mkRouteSegment [mkUrlSegment "" [] None] [] DEFAULT_OUTLET_NAME "App".
Definition team33 := seg ["team"; "33"] DEFAULT_OUTLET_NAME "Team".
Definition team44 := seg ["team"; "44"] DEFAULT_OUTLET_NAME "Team".
Definition user11 := seg ["user"; "11"] DEFAULT_OUTLET_NAME "User".
Definition user22 := seg ["user"; "22"] DEFAULT_OUTLET_NAME "User".
Definition chat := seg ["chat"] "aux" "Chat".

Definition tree (cs : list (TreeNode RouteSegment)) : RouteTree :=
  mkTree (Node rootSeg cs).

Definition at_team33_user11 := tree [Node team33 [Node user11 []]].
Definition at_team33_user22 := tree [Node team33 [Node user22 []]].
Definition at_team33 := tree [Node team33 []].
Definition at_team44_user11 := tree [Node team44 [Node user11 []]].
Definition at_root := tree [].
Definition at_team33_chat := tree [Node team33 []; Node chat []].
Definition at_team44_chat := tree [Node team44 [Node chat []]].

Definition consents : option RouteTree -> RouteTree -> Promise bool :=
  fun _ _ => Resolved true.
Definition vetoes : option RouteTree -> RouteTree -> Promise bool :=
  fun _ _ => Resolved false.

Definition app : Component := mkComponent 0 None false.
Definition team (guard : option (option RouteTree -> RouteTree -> Promise bool))
    : Component := mkComponent 1 guard false.
Definition user (guard : option (option RouteTree -> RouteTree -> Promise bool))
    : Component := mkComponent 2 guard false.

(** The outlets as they stand at /team/33/user/11. *)
Definition mounted (teamCmp userCmp : Component) : RouterOutletMap :=
  [(DEFAULT_OUTLET_NAME,
    mkRouterOutlet (Some teamCmp)
      (Some [(DEFAULT_OUTLET_NAME, mkRouterOutlet (Some userCmp) (Some []))]))].

Definition router (teamCmp userCmp : Component) : Router :=
  mkRouter at_team33_user11 None (mounted teamCmp userCmp) app [].

(** New instances carry no hooks; a team has one slot for its user. *)
Definition instantiate (s : RouteSegment) : Component :=
  mkComponent (10 + List.length (urlSegments s)) None false.
Definition template (s : RouteSegment) : list string :=
  if String.eqb (_type s) "Team" then [DEFAULT_OUTLET_NAME] else [].

Definition url (path : list string) : UrlTree :=
  mkTree (Node (mkUrlSegment "" [] None)
               (map (fun p => Node (mkUrlSegment p [] None) []) path)).

Definition recognizes (t : RouteTree) : UrlTree -> Promise RouteTree :=
  fun _ => Resolved t.
Definition no_match : UrlTree -> Promise RouteTree :=
  fun _ => Rejected (Failure "Cannot match any routes").

Definition serialize (u : UrlTree) : string :=
  concat "/" (map (fun n => segment (value n)) (rootNode u :: children (rootNode u))).

Definition navigate := _navigate instantiate template.

Definition fresh (curr : RouteTree) (prev : RouteTree) : LoadSegments :=
  new_LoadSegments curr (Some prev) [].


End TeamApp.

(** ** The rest of [Router] *)

(** [_createInitialTree]: the accepted tree of a router that has not
    navigated yet, a root segment for the root component type and no
    children. *)
Definition _createInitialTree (rootComponentType : string) : RouteTree :=
  mkTree (Node (mkRouteSegment [mkUrlSegment "" [] None] []
                               DEFAULT_OUTLET_NAME rootComponentType) []).

(** [tree.root] of ./segments: the segment at the root. *)
Definition root (t : RouteTree) : RouteSegment := value (rootNode t).

Section PublicApi.
Variable instantiate : RouteSegment -> Component.
Variable template : RouteSegment -> list string.
Variable recognize : UrlTree -> Promise RouteTree.
Variable serialize : UrlTree -> string.

(** The url parser and the link function, collaborators as well; a command
    of [any[]] is left abstract. *)
Variable parse : string -> UrlTree.
Variable Command : Type.
Variable link : RouteSegment -> RouteTree -> option UrlTree -> list Command -> UrlTree.

Definition navigateByUrl (r : Router) (url : string) : Promise JsValue * Router :=
  _navigate instantiate template recognize serialize r (parse url).

Definition createUrlTree (r : Router) (commands : list Command)
    (segment : option RouteSegment) : UrlTree :=
  let s := match segment with
           | Some seg => seg
           | None => root (_prevTree r)
           end in
  link s (_prevTree r) (urlTree r) commands.

Definition navigate (r : Router) (commands : list Command)
    (segment : option RouteSegment) : Promise JsValue * Router :=
  _navigate instantiate template recognize serialize r
            (createUrlTree r commands segment).

Definition serializeUrl (url : UrlTree) : string := serialize url.

(** The constructor: the initial tree, then a navigation to the current
    location whose promise is dropped.  The url tree is undefined until
    that navigation stores one. *)
Definition new_Router (rootComponent : Component) (rootComponentType : string)
    (routerOutletMap : RouterOutletMap) (locationPath : string) : Router :=
  snd (navigateByUrl
         (mkRouter (_createInitialTree rootComponentType) None routerOutletMap
                   rootComponent [])
         locationPath).

(** The callback of [_setUpLocationChangeListener]. *)
Definition onLocationChange (r : Router) (changeUrl : string) : Router :=
  snd (_navigate instantiate template recognize serialize r (parse changeUrl)).

End PublicApi.

(** ** More notions for the properties *)

Definition keys {V} (m : list (string * V)) : list string := map fst m.

(** Every outlet of the registry is empty. *)
Definition all_empty (m : RouterOutletMap) : bool :=
  forallb (fun kv => negb (isLoaded (snd kv))) m.

(** An outlet after everything mounted in it and below it has been
    unloaded: the registries stay. *)
Fixpoint emptied (o : RouterOutlet) : RouterOutlet :=
  match o with
  | mkRouterOutlet (Some c) (Some m) =>
      mkRouterOutlet None (Some (map (fun kv => (fst kv, emptied (snd kv))) m))
  | mkRouterOutlet _ _ => o
  end.

Definition unloads (cs : list Component) : list Event :=
  map (fun c => EvUnload (cid c)) cs.

Section Mounting.
Variable instantiate : RouteSegment -> Component.

(** What loading one segment shows: the load, then the activation hook of
    the new instance if it has one. *)
Definition load_events (seg : RouteSegment) : list Event :=
  EvLoad seg (cid (instantiate seg))
  :: (if routerOnActivate (instantiate seg)
      then [EvOnActivate (cid (instantiate seg))] else []).

(** Mounting a subtree, parents before children, siblings in order. *)
Fixpoint mount_events (n : TreeNode RouteSegment) : list Event :=
  match n with
  | Node v cs => load_events v ++ flat_map mount_events cs
  end.

End Mounting.

Definition is_mount (e : Event) : bool :=
  match e with
  | EvLoad _ _ | EvOnActivate _ => true
  | _ => false
  end.

(** The last child of [cs] bound to the slot [k]. *)
Definition last_in_slot (k : string) (cs : list (TreeNode RouteSegment))
    : option (TreeNode RouteSegment) :=
  find (fun c => String.eqb k (outlet (value c))) (rev cs).

(** Two registries, or two absent ones, with the same slot names. *)
Definition same_keys (om om' : option RouterOutletMap) : Prop :=
  option_map keys om' = option_map keys om.

(** The outlets that the children [cs] are bound to are empty. *)
Definition empty_at (om : option RouterOutletMap)
    (cs : list (TreeNode RouteSegment)) : Prop :=
  forall c m o, In c cs -> om = Some m ->
    lookup (outlet (value c)) m = Some o -> isLoaded o = false.

Section MountsBelow.
Variable instantiate : RouteSegment -> Component.
Variable template : RouteSegment -> list string.

(** What the commit walk does below [n] when no previous child is paired
    with any candidate child and the outlets it meets are empty. *)
Definition mounts_below (n : TreeNode RouteSegment) : Prop :=
  forall prevNode om components s r om' s',
    unique_slots n = true ->
    performMutation s = true ->
    prevChildrenOf prevNode = [] ->
    empty_at om (children n) ->
    loadChildSegments instantiate template n prevNode om components s
    = (r, om', s') ->
    exists evs,
      trace s' = trace s ++ evs /\ forallb is_mount evs = true /\
      (r = Normal -> evs = flat_map (mount_events instantiate) (children n)) /\
      performMutation s' = true.

End MountsBelow.

(** [path] leads from [components] on to one more component, possibly past
    others. *)
Definition leads_from (components : list Obj) (path : list Obj) : Prop :=
  exists rest c, path = components ++ rest ++ [Some c].

(** [s'] has the paths of [s] and, after them, paths that lead on from
    [components]. *)
Definition collects_from (components : list Obj) (s s' : LoadSegments) : Prop :=
  exists paths, deactivations s' = deactivations s ++ paths /\
                Forall (leads_from components) paths.

(** [s] with the calls [cs] added to its trace. *)
Definition add_calls (cs : list Event) (s : LoadSegments) : LoadSegments :=
  mkLoadSegments (currTree s) (prevTree s) (deactivations s)
                 (performMutation s) (trace s ++ cs).

(** The names that every JS object inherits from [Object.prototype]: read
    from a dictionary made with [{}], such a name gives the inherited
    member where [lookup] gives nothing, and assigning to ["__proto__"] adds
    no key. *)
Definition inherited_names : list string :=
  ["constructor"; "toString"; "toLocaleString"; "valueOf"; "hasOwnProperty";
   "isPrototypeOf"; "propertyIsEnumerable"; "__proto__"; "__defineGetter__";
   "__defineSetter__"; "__lookupGetter__"; "__lookupSetter__"].

(** A name under which a dictionary holds what was assigned to it and
    nothing else. *)
Definition ordinary (k : string) : bool :=
  negb (existsb (String.eqb k) inherited_names).

(** A call of one of the two methods of the walk that call each other,
    with its arguments and the state it starts from. *)
Inductive Call : Type :=
| CallLoadChildSegments (currNode : TreeNode RouteSegment)
    (prevNode : option (TreeNode RouteSegment))
    (om : option RouterOutletMap) (components : list Obj) (s : LoadSegments)
| CallLoadSegments (currNode : TreeNode RouteSegment)
    (prevNode : option (TreeNode RouteSegment))
    (parentOutletMap : option RouterOutletMap) (components : list Obj)
    (s : LoadSegments).

Section Calls.
Variable instantiate : RouteSegment -> Component.
Variable template : RouteSegment -> list string.

Definition run (call : Call) : WalkResult :=
  match call with
  | CallLoadChildSegments currNode prevNode om components s =>
      loadChildSegments instantiate template currNode prevNode om components s
  | CallLoadSegments currNode prevNode parentOutletMap components s =>
      loadSegments instantiate template currNode prevNode parentOutletMap
                   components s
  end.

(** [makes a b]: the body of the call [a] gets to the call [b].
    [loadChildSegments] calls [loadSegments] for a child once the visits
    of the children before it have returned; [loadSegments] calls
    [loadChildSegments] for a node it reuses and, with mutation enabled,
    for a node it has just loaded. *)
Inductive makes : Call -> Call -> Prop :=
| makes_visit currNode prevNode om components s before c after remaining om1 s1 :
    children currNode = before ++ c :: after ->
    forEachChild
      (fun c' p' om' s' =>
         loadSegments instantiate template c' p' om' components s')
      before (prevChildrenOf prevNode) om s = (Normal, remaining, om1, s1) ->
    makes (CallLoadChildSegments currNode prevNode om components s)
          (CallLoadSegments c (lookup (outlet (value c)) remaining) om1
                            components s1)
| makes_reuse currNode prevNode parentOutletMap components s o :
    getOutlet parentOutletMap (value currNode) = inr o ->
    equalSegments (value currNode) (option_map (@value RouteSegment) prevNode)
    = true ->
    makes (CallLoadSegments currNode prevNode parentOutletMap components s)
          (CallLoadChildSegments currNode prevNode (outletMap o)
                                 (components ++ [loadedComponent o]) s)
| makes_replace currNode prevNode parentOutletMap components s o o1 s1
    instance o2 s2 :
    getOutlet parentOutletMap (value currNode) = inr o ->
    equalSegments (value currNode) (option_map (@value RouteSegment) prevNode)
    = false ->
    unloadOutlet_present o components s = (Normal, o1, s1) ->
    performMutation s1 = true ->
    loadNewSegment instantiate template (value currNode)
                   (option_map (@value RouteSegment) prevNode) o1 s1
    = (instance, o2, s2) ->
    makes (CallLoadSegments currNode prevNode parentOutletMap components s)
          (CallLoadChildSegments currNode prevNode (outletMap o2)
                                 (components ++ [Some instance]) s2).

(** [reaches a b]: running [a] gets to [b], at any depth. *)
Inductive reaches : Call -> Call -> Prop :=
| reaches_here a : reaches a a
| reaches_on a b c : makes a b -> reaches b c -> reaches a c.

(** The calls that start the two walks of a navigation of [r] to the
    candidate tree [t]: the first with mutation disabled, the second from
    the state the guard phase leaves, with mutation enabled.  Both are
    given the registry of the router, which the first walk and the guard
    phase leave as it is. *)
Definition first_walk (r : Router) (t : RouteTree) : Call :=
  CallLoadChildSegments (rootNode t) (Some (rootNode (_prevTree r)))
    (Some (_routerOutletMap r)) [Some (_rootComponent r)]
    (set_performMutation false (starting r t)).

Definition second_walk (r : Router) (t : RouteTree) : Call :=
  CallLoadChildSegments (rootNode t) (Some (rootNode (_prevTree r)))
    (Some (_routerOutletMap r)) [Some (_rootComponent r)]
    (set_performMutation true
       (snd (guardPhase instantiate template (Some (_routerOutletMap r))
                        (_rootComponent r) (starting r t)))).

(** Every check of the guard phase has consented. *)
Definition consented (r : Router) (t : RouteTree) : Prop :=
  fst (fst (guardPhase instantiate template (Some (_routerOutletMap r))
                       (_rootComponent r) (starting r t)))
  = Returned (Resolved true).

End Calls.

(** * Properties *)

(** ** Induction over the two nested trees *)

Lemma TreeNode_nested_ind (T : Type) (P : TreeNode T -> Prop) :
  (forall v cs, Forall P cs -> P (Node v cs)) -> forall n, P n.
Proof.
  intros step. fix IH 1. intros [v cs]. apply step.
  induction cs as [|c cs IHcs]; constructor; [apply IH | exact IHcs].
Qed.

Lemma RouterOutlet_nested_ind (P : RouterOutlet -> Prop) :
  (forall l, P (mkRouterOutlet l None)) ->
  (forall l m, Forall (fun kv => P (snd kv)) m -> P (mkRouterOutlet l (Some m))) ->
  forall o, P o.
Proof.
  intros leaf step. fix IH 1. intros [l [m|]]; [|apply leaf].
  apply step. induction m as [|[k v] m IHm]; constructor; [apply IH | exact IHm].
Qed.

(** ** Dictionaries *)

Lemma lookup_assign_same {V} (k : string) (v : V) m :
  lookup k m = Some v -> assign k v m = m.
Proof.
  induction m as [|[k' v'] m IH]; simpl; [discriminate|].
  destruct (String.eqb k k') eqn:E.
  - intros [= ->]. apply String.eqb_eq in E. now subst.
  - intros H. now rewrite IH.
Qed.

Lemma lookup_assign_other {V} (k k' : string) (v : V) m :
  lookup k m <> None -> lookup k' m = None -> lookup k' (assign k v m) = None.
Proof.
  induction m as [|[k0 v0] m IH]; simpl; [congruence|].
  destruct (String.eqb k k0) eqn:E; destruct (String.eqb k' k0) eqn:E'; simpl;
    try discriminate.
  - intros _ H. apply String.eqb_eq in E. subst k0. now rewrite E'.
  - intros H1 H2. rewrite E'. now apply IH.
Qed.

(** ** How the walk moves the reconciliation state *)

Lemma steps_refl s : steps s s.
Proof.
  repeat split; [exists [] | exists []]; rewrite app_nil_r; auto.
Qed.

Lemma steps_trans s1 s2 s3 : steps s1 s2 -> steps s2 s3 -> steps s1 s3.
Proof.
  intros (C1 & P1 & M1 & (e1 & T1 & F1 & D1) & (p1 & A1 & N1))
         (C2 & P2 & M2 & (e2 & T2 & F2 & D2) & (p2 & A2 & N2)).
  repeat split; try congruence.
  - exists (e1 ++ e2). rewrite T2, T1, app_assoc, forallb_app, F1, F2.
    repeat split. intros H. rewrite (D1 H), D2; [reflexivity | congruence].
  - exists (p1 ++ p2). rewrite A2, A1, app_assoc. split; [reflexivity|].
    intros H. rewrite (N1 H), N2; [reflexivity | congruence].
Qed.

Lemma steps_record e s :
  performMutation s = true -> is_mutation e = true -> steps s (record e s).
Proof.
  intros M E. repeat split; simpl.
  - exists [e]. simpl. rewrite E. repeat split. congruence.
  - exists []. now rewrite app_nil_r.
Qed.

Lemma steps_push path s :
  performMutation s = false -> steps s (push_deactivation path s).
Proof.
  intros M. repeat split; simpl.
  - exists []. now rewrite app_nil_r.
  - exists [path]. split; [reflexivity | congruence].
Qed.

Lemma steps_mode s s' : steps s s' -> performMutation s' = performMutation s.
Proof. intros H; apply H. Qed.

Lemma steps_dry_trace s s' :
  steps s s' -> performMutation s = false -> trace s' = trace s.
Proof.
  intros (_ & _ & _ & (e & T & _ & D) & _) M.
  rewrite T, (D M). apply app_nil_r.
Qed.

Lemma steps_commit_paths s s' :
  steps s s' -> performMutation s = true -> deactivations s' = deactivations s.
Proof.
  intros (_ & _ & _ & _ & (p & A & N)) M.
  rewrite A, (N M). apply app_nil_r.
Qed.

(** ** Unloading *)

Lemma forEachValue_steps (f : RouterOutlet -> LoadSegments ->
                              Completion * RouterOutlet * LoadSegments) m :
  Forall (fun kv => forall s r v' s', f (snd kv) s = (r, v', s') ->
            steps s s' /\ (performMutation s = false -> v' = snd kv)) m ->
  forall s r m' s', forEachValue f m s = (r, m', s') ->
    steps s s' /\ (performMutation s = false -> m' = m).
Proof.
  induction 1 as [|[k v] m Hv Hm IH]; simpl; intros s r m' s' E.
  - inversion E; subst. split; [apply steps_refl | reflexivity].
  - destruct (f v s) as [[rv v1] s1] eqn:Ev.
    destruct (Hv _ _ _ _ Ev) as [S1 K1]. simpl in K1.
    destruct rv.
    + destruct (forEachValue f m s1) as [[r2 m2] s2] eqn:Er.
      inversion E; subst; clear E.
      destruct (IH _ _ _ _ Er) as [S2 K2]. split.
      * eapply steps_trans; eassumption.
      * intros M. rewrite (K1 M), K2; [reflexivity|].
        now rewrite (steps_mode _ _ S1).
    + inversion E; subst; clear E. split; [assumption|].
      intros M. now rewrite (K1 M).
Qed.

Lemma unloadOutlet_present_steps o : forall components s r o' s',
  unloadOutlet_present o components s = (r, o', s') ->
  steps s s' /\ (performMutation s = false -> o' = o).
Proof.
  induction o as [l | l m IH] using RouterOutlet_nested_ind;
    intros components s r o' s' E.
  - destruct l; simpl in E; inversion E; subst;
      (split; [apply steps_refl | reflexivity]).
  - destruct l as [c|]; simpl in E.
    2:{ inversion E; subst. split; [apply steps_refl | reflexivity]. }
    destruct (forEachValue (fun v s0 => unloadOutlet_present v components s0) m s)
      as [[r1 m1] s1] eqn:Em.
    assert (H : steps s s1 /\ (performMutation s = false -> m1 = m)).
    { eapply forEachValue_steps; [|exact Em].
      eapply Forall_impl; [|exact IH]. intros kv Hkv; intros. eapply Hkv; eauto. }
    destruct H as [S1 K1]. destruct r1.
    + destruct (performMutation s1) eqn:M1; inversion E; subst; clear E.
      * split.
        -- eapply steps_trans; [exact S1 | now apply steps_record].
        -- intros M. rewrite (steps_mode _ _ S1) in M1. congruence.
      * split.
        -- eapply steps_trans; [exact S1 | now apply steps_push].
        -- intros M. now rewrite (K1 M).
    + inversion E; subst; clear E. split; [assumption|].
      intros M. now rewrite (K1 M).
Qed.

Lemma unloadOutlet_steps o components s r o' s' :
  unloadOutlet o components s = (r, o', s') ->
  steps s s' /\ (performMutation s = false -> o' = o).
Proof.
  destruct o as [o|]; simpl.
  - destruct (unloadOutlet_present o components s) as [[r1 o1] s1] eqn:E.
    intros [= <- <- <-]. destruct (unloadOutlet_present_steps _ _ _ _ _ _ E) as [S K].
    split; [assumption | intros M; now rewrite (K M)].
  - intros [= <- <- <-]. split; [apply steps_refl | reflexivity].
Qed.

(** ** The walk keeps to its mode *)

Lemma getOutlet_inr om seg o :
  getOutlet om seg = inr o ->
  exists m, om = Some m /\ lookup (outlet seg) m = Some o.
Proof.
  unfold getOutlet. destruct om as [m|]; [|discriminate].
  destruct (lookup (outlet seg) m) eqn:L.
  - intros [= ->]. now exists m.
  - destruct (String.eqb _ _); discriminate.
Qed.

Lemma outlet_eta o : mkRouterOutlet (_loaded o) (outletMap o) = o.
Proof. now destruct o. Qed.

Lemma put_in_same k o m :
  lookup k m = Some o -> put_in k o (Some m) = Some m.
Proof. intros L. unfold put_in; simpl. now rewrite lookup_assign_same. Qed.

Lemma put_lookup k m : put k (lookup k m) m = m.
Proof.
  unfold put. destruct (lookup k m) eqn:L; [|reflexivity].
  now apply lookup_assign_same.
Qed.

Section WalkFacts.
Variable instantiate : RouteSegment -> Component.
Variable template : RouteSegment -> list string.

Lemma loadNewSegment_steps curr prev o s instance o' s' :
  loadNewSegment instantiate template curr prev o s = (instance, o', s') ->
  performMutation s = true -> steps s s'.
Proof.
  unfold loadNewSegment. intros [= <- <- <-] M.
  eapply steps_trans; [apply (steps_record (EvLoad curr (cid (instantiate curr))) s M);
                       reflexivity|].
  destruct (routerOnActivate (instantiate curr)).
  - now apply steps_record.
  - apply steps_refl.
Qed.

Lemma unloadRemaining_spec prevChildren components :
  walk_spec (fun om s => unloadRemaining prevChildren om components s).
Proof.
  induction prevChildren as [|[k n] rest IH]; intros om s r om' s'; simpl.
  - intros [= <- <- <-]. split; [apply steps_refl | reflexivity].
  - destruct om as [m|].
    + destruct (unloadOutlet (lookup k m) components s) as [[r1 o1] s1] eqn:E.
      destruct (unloadOutlet_steps _ _ _ _ _ _ E) as [S1 K1].
      destruct r1.
      * intros E2. destruct (IH _ _ _ _ _ E2) as [S2 K2]. split.
        -- eapply steps_trans; eassumption.
        -- intros M. rewrite K2 by now rewrite (steps_mode _ _ S1).
           now rewrite (K1 M), put_lookup.
      * intros [= <- <- <-]. split; [assumption|].
        intros M. now rewrite (K1 M), put_lookup.
    + intros [= <- <- <-]. split; [apply steps_refl | reflexivity].
Qed.

Lemma loadSegments_with_spec rec currNode prevNode components :
  (forall p comps, walk_spec (fun om s => rec p om comps s)) ->
  walk_spec (fun om s =>
    loadSegments_with instantiate template rec currNode prevNode om components s).
Proof.
  intros Hrec om s r om' s'. unfold loadSegments_with.
  destruct (getOutlet om (value currNode)) as [e|o] eqn:G.
  { intros [= <- <- <-]. split; [apply steps_refl | reflexivity]. }
  destruct (getOutlet_inr _ _ _ G) as (m & -> & L).
  destruct (equalSegments _ _).
  - destruct (rec prevNode (outletMap o) (components ++ [loadedComponent o]) s)
      as [[r1 m1] s1] eqn:E.
    intros [= <- <- <-]. destruct (Hrec _ _ _ _ _ _ _ E) as [S1 K1].
    split; [assumption|]. intros M.
    rewrite (K1 M), outlet_eta. now apply put_in_same.
  - destruct (unloadOutlet_present o components s) as [[r1 o1] s1] eqn:E.
    destruct (unloadOutlet_present_steps _ _ _ _ _ _ E) as [S1 K1].
    destruct r1.
    + destruct (performMutation s1) eqn:M1.
      * destruct (loadNewSegment instantiate template (value currNode)
                    (option_map (@value RouteSegment) prevNode) o1 s1)
          as [[inst o2] s2] eqn:N.
        destruct (rec prevNode (outletMap o2) (components ++ [Some inst]) s2)
          as [[r3 m3] s3] eqn:E3.
        intros [= <- <- <-].
        pose proof (loadNewSegment_steps _ _ _ _ _ _ _ N M1) as S2.
        destruct (Hrec _ _ _ _ _ _ _ E3) as [S3 _].
        split.
        -- eapply steps_trans; [exact S1|]. eapply steps_trans; eassumption.
        -- intros M. rewrite (steps_mode _ _ S1) in M1. congruence.
      * intros [= <- <- <-]. split; [assumption|].
        intros M. rewrite (K1 M). now apply put_in_same.
    + intros [= <- <- <-]. split; [assumption|].
      intros M. rewrite (K1 M). now apply put_in_same.
Qed.

Lemma forEachChild_steps visit cs :
  Forall (fun c => forall p, walk_spec (visit c p)) cs ->
  forall prevChildren om s r remaining om' s',
    forEachChild visit cs prevChildren om s = (r, remaining, om', s') ->
    steps s s' /\ (performMutation s = false -> om' = om).
Proof.
  induction 1 as [|c cs Hc Hcs IH]; simpl; intros prevChildren om s r remaining om' s'.
  - intros [= <- <- <- <-]. split; [apply steps_refl | reflexivity].
  - destruct (visit c (lookup (outlet (value c)) prevChildren) om s)
      as [[r1 om1] s1] eqn:E.
    destruct (Hc _ _ _ _ _ _ E) as [S1 K1].
    destruct r1.
    + intros E2. destruct (IH _ _ _ _ _ _ _ E2) as [S2 K2]. split.
      * eapply steps_trans; eassumption.
      * intros M. rewrite K2 by now rewrite (steps_mode _ _ S1). now apply K1.
    + intros [= <- <- <- <-]. split; assumption.
Qed.

Lemma loadChildSegments_spec currNode : forall prevNode components,
  walk_spec (fun om s =>
    loadChildSegments instantiate template currNode prevNode om components s).
Proof.
  induction currNode as [v cs IH] using TreeNode_nested_ind.
  intros prevNode components om s r om' s'. simpl.
  destruct (forEachChild _ cs (prevChildrenOf prevNode) om s)
    as [[[r1 remaining] om1] s1] eqn:E.
  assert (H : steps s s1 /\ (performMutation s = false -> om1 = om)).
  { eapply forEachChild_steps; [|exact E].
    eapply Forall_impl; [|exact IH]. intros c Hc p.
    apply loadSegments_with_spec. intros p' comps. apply Hc. }
  destruct H as [S1 K1]. destruct r1.
  - intros E2. destruct (unloadRemaining_spec _ _ _ _ _ _ _ E2) as [S2 K2]. split.
    + eapply steps_trans; eassumption.
    + intros M. rewrite K2 by now rewrite (steps_mode _ _ S1). now apply K1.
  - intros [= <- <- <-]. split; assumption.
Qed.

End WalkFacts.

(** ** Guard chains *)

Lemma asks_refl s : asks s s.
Proof. repeat split. exists []. now rewrite app_nil_r. Qed.

Lemma asks_trans s1 s2 s3 : asks s1 s2 -> asks s2 s3 -> asks s1 s3.
Proof.
  intros (C1 & P1 & M1 & D1 & e1 & T1 & F1) (C2 & P2 & M2 & D2 & e2 & T2 & F2).
  repeat split; try congruence.
  exists (e1 ++ e2). now rewrite T2, T1, app_assoc, forallb_app, F1, F2.
Qed.

Lemma deactivateStep_asks p curr s : asks s (snd (deactivateStep p curr s)).
Proof.
  unfold deactivateStep.
  destruct curr; try apply asks_refl.
  destruct p as [c|]; try apply asks_refl.
  destruct (routerCanDeactivate c); try apply asks_refl.
  simpl. repeat split. now eexists [_].
Qed.

Lemma deactivateChain_asks ps : forall curr s,
  asks s (snd (deactivateChain ps curr s)).
Proof.
  induction ps as [|p ps IH]; intros curr s; simpl; [apply asks_refl|].
  pose proof (deactivateStep_asks p curr s) as H.
  destruct (deactivateStep p curr s) as [c1 s1]. simpl in H.
  eapply asks_trans; [exact H | apply IH].
Qed.

Lemma deactivateChain_app ps qs : forall curr s,
  deactivateChain (ps ++ qs) curr s =
  deactivateChain qs (fst (deactivateChain ps curr s))
                     (snd (deactivateChain ps curr s)).
Proof.
  induction ps as [|p ps IH]; intros curr s; simpl; [reflexivity|].
  destruct (deactivateStep p curr s) as [c1 s1]. apply IH.
Qed.

(** A chain that has stopped being resolved asks nobody any more. *)
Lemma deactivateChain_unresolved ps : forall curr s,
  is_resolved curr = false -> deactivateChain ps curr s = (curr, s).
Proof.
  induction ps as [|p ps IH]; intros curr s U; simpl; [reflexivity|].
  destruct curr; try discriminate; simpl; now apply IH.
Qed.

Lemma guarded_cons_guard c g ps :
  routerCanDeactivate c = Some g -> guarded (Some c :: ps) = cid c :: guarded ps.
Proof. intros G. unfold guarded; simpl. now rewrite G. Qed.

Lemma guarded_cons_plain c ps :
  routerCanDeactivate c = None -> guarded (Some c :: ps) = guarded ps.
Proof. intros G. unfold guarded; simpl. now rewrite G. Qed.

(** The calls of a chain, against the guarded components of its list. *)
Lemma deactivateChain_calls ps : forall curr s,
  is_resolved curr = true ->
  exists calls,
    trace (snd (deactivateChain ps curr s)) = trace s ++ calls /\
    (exists rest, guarded ps = asked calls ++ rest) /\
    (answers_settle (prevTree s) (currTree s) ps = true ->
     asked calls = guarded ps /\
     is_resolved (fst (deactivateChain ps curr s)) = true).
Proof.
  induction ps as [|p ps IH]; intros curr s R.
  - exists []. simpl. rewrite app_nil_r. repeat split; auto. now exists [].
  - destruct curr as [v| |]; try discriminate.
    destruct p as [c|]; [destruct (routerCanDeactivate c) as [g|] eqn:G|].
    + set (a := g (prevTree s) (currTree s)).
      assert (E : deactivateChain (Some c :: ps) (Resolved v) s =
                  deactivateChain ps a (record (EvCanDeactivate (cid c) a) s)).
      { simpl. now rewrite G. }
      assert (St : answers_settle (prevTree s) (currTree s) (Some c :: ps) =
                   is_resolved a && answers_settle (prevTree s) (currTree s) ps).
      { unfold answers_settle; simpl. rewrite G. fold a. now destruct a. }
      destruct (is_resolved a) eqn:A.
      * destruct (IH a (record (EvCanDeactivate (cid c) a) s) A)
          as (calls & T & (rest & P) & Q).
        exists (EvCanDeactivate (cid c) a :: calls).
        rewrite E, St, (guarded_cons_guard _ _ ps G).
        simpl in T, Q. rewrite T, <- app_assoc. simpl. repeat split.
        -- exists rest. now rewrite P.
        -- destruct (Q H) as [Q1 Q2]. now rewrite Q1.
        -- now apply Q.
      * exists [EvCanDeactivate (cid c) a].
        rewrite E, St, (guarded_cons_guard _ _ ps G).
        rewrite deactivateChain_unresolved by exact A.
        simpl. repeat split; try discriminate.
        now exists (guarded ps).
    + assert (E : deactivateChain (Some c :: ps) (Resolved v) s =
                  deactivateChain ps (Resolved v) s).
      { simpl. now rewrite G. }
      assert (St : answers_settle (prevTree s) (currTree s) (Some c :: ps) =
                   answers_settle (prevTree s) (currTree s) ps).
      { unfold answers_settle; simpl. now rewrite G. }
      destruct (IH (Resolved v) s eq_refl) as (calls & T & P & Q).
      exists calls. now rewrite E, St, (guarded_cons_plain _ ps G).
    + apply (IH (Resolved v) s). reflexivity.
Qed.

Lemma guarded_app ps qs : guarded (ps ++ qs) = guarded ps ++ guarded qs.
Proof. apply flat_map_app. Qed.

Lemma guarded_rev path : guarded (rev path) = rev (guarded path).
Proof.
  induction path as [|p path IH]; simpl; [reflexivity|].
  rewrite guarded_app, IH. unfold guarded at 2 3. simpl.
  rewrite app_nil_r.
  destruct p as [c|]; [destruct (hasCanDeactivate (Some c))|];
    simpl; now rewrite ?app_nil_r.
Qed.

Lemma answers_settle_rev prev curr path :
  answers_settle prev curr (rev path) = answers_settle prev curr path.
Proof.
  unfold answers_settle. induction path as [|p path IH]; simpl; [reflexivity|].
  rewrite forallb_app, IH. simpl. rewrite andb_true_r. apply andb_comm.
Qed.

Lemma checkCanDeactivatePath_asks path s :
  asks s (snd (checkCanDeactivatePath path s)).
Proof. apply deactivateChain_asks. Qed.

Lemma checkAll_asks paths : forall s, asks s (snd (checkAll paths s)).
Proof.
  induction paths as [|path paths IH]; intros s; simpl; [apply asks_refl|].
  pose proof (checkCanDeactivatePath_asks path s) as H1.
  destruct (checkCanDeactivatePath path s) as [a s1]. simpl in H1.
  pose proof (IH s1) as H2.
  destruct (checkAll paths s1) as [answers s2]. simpl in *.
  eapply asks_trans; eassumption.
Qed.

(** An outer guard with a say has the last word: whatever the components
    further in have answered, the chain resolves to the answer of the
    outermost guard. *)
Lemma outermost_guard_decides outer guard inner s :
  routerCanDeactivate outer = Some guard ->
  answers_settle (prevTree s) (currTree s) inner = true ->
  fst (checkCanDeactivatePath (Some outer :: inner) s) =
  guard (prevTree s) (currTree s).
Proof.
  intros G St. unfold checkCanDeactivatePath. simpl rev.
  rewrite deactivateChain_app.
  destruct (deactivateChain_calls (rev inner) (Resolved true) s eq_refl)
    as (calls & _ & _ & Q).
  rewrite answers_settle_rev in Q. destruct (Q St) as [_ R].
  destruct (deactivateChain_asks (rev inner) (Resolved true) s) as (C & P & _).
  destruct (deactivateChain (rev inner) (Resolved true) s) as [a s1].
  simpl in *. destruct a; try discriminate. simpl.
  now rewrite G, C, P.
Qed.

(** ** All paths together *)

Lemma all_values_map {A} (ps : list (Promise A)) vs :
  all_values ps = Some vs -> ps = map Resolved vs.
Proof.
  revert vs. induction ps as [|p ps IH]; simpl; intros vs.
  - now intros [= <-].
  - destruct p; try discriminate.
    destruct (all_values ps) as [vs'|]; simpl; [|discriminate].
    intros [= <-]. simpl. now rewrite (IH vs' eq_refl).
Qed.

Lemma all_consent_true values :
  all_consent values = true -> Forall (fun v => v = true) values.
Proof.
  unfold all_consent. intros H. apply Nat.eqb_eq in H.
  induction values as [|v values IH]; constructor.
  - destruct v; [reflexivity|]. simpl in H.
    pose proof (filter_length_le (fun v => v) values). lia.
  - apply IH. destruct v; simpl in H; [lia|].
    pose proof (filter_length_le (fun v => v) values). lia.
Qed.

Lemma consent_all_resolved_true (answers : list (Promise bool)) :
  then_ (PromiseWrapper_all answers) (fun values => Resolved (all_consent values))
  = Resolved true ->
  Forall (fun a => a = Resolved true) answers.
Proof.
  unfold PromiseWrapper_all.
  destruct (all_rejected answers); [discriminate|].
  destruct (all_values answers) as [vs|] eqn:V; [|discriminate].
  simpl. intros [= H]. rewrite (all_values_map _ _ V).
  apply all_consent_true in H. clear V.
  induction H; simpl; constructor; [now subst | assumption].
Qed.

(** ** The two passes *)

Section Passes.
Variable instantiate : RouteSegment -> Component.
Variable template : RouteSegment -> list string.

Lemma dryRun_pure om rootComponent s :
  snd (fst (dryRun instantiate template om rootComponent s)) = om /\
  trace (snd (dryRun instantiate template om rootComponent s)) = trace s /\
  currTree (snd (dryRun instantiate template om rootComponent s)) = currTree s /\
  prevTree (snd (dryRun instantiate template om rootComponent s)) = prevTree s /\
  performMutation (snd (dryRun instantiate template om rootComponent s)) = false.
Proof.
  unfold dryRun.
  destruct (loadChildSegments _ _ _ _ om _ (set_performMutation false s))
    as [[r om1] s1] eqn:E.
  destruct (loadChildSegments_spec _ _ _ _ _ _ _ _ _ _ E) as [S K]. simpl.
  repeat split.
  - now apply K.
  - now rewrite (steps_dry_trace _ _ S).
  - apply S.
  - apply S.
  - now rewrite (steps_mode _ _ S).
Qed.

Lemma guardPhase_dryRun om rootComponent s :
  guardPhase instantiate template om rootComponent s =
  match dryRun instantiate template om rootComponent s with
  | (Throw e, om1, s1) => (Thrown e, om1, s1)
  | (Normal, om1, s1) =>
      (Returned (then_ (PromiseWrapper_all (fst (checkAll (deactivations s1) s1)))
                       (fun values => Resolved (all_consent values))),
       om1, snd (checkAll (deactivations s1) s1))
  end.
Proof.
  unfold guardPhase, canDeactivate, dryRun.
  destruct (loadChildSegments _ _ _ _ _ _ _) as [[[|e] om1] s1]; [|reflexivity].
  now destruct (checkAll (deactivations s1) s1).
Qed.

Lemma guardPhase_facts om rootComponent s :
  snd (fst (guardPhase instantiate template om rootComponent s)) = om /\
  currTree (snd (guardPhase instantiate template om rootComponent s)) = currTree s /\
  prevTree (snd (guardPhase instantiate template om rootComponent s)) = prevTree s /\
  exists calls,
    trace (snd (guardPhase instantiate template om rootComponent s)) = trace s ++ calls /\
    forallb is_guard calls = true.
Proof.
  rewrite guardPhase_dryRun.
  pose proof (dryRun_pure om rootComponent s) as (K & T & C & P & M).
  destruct (dryRun instantiate template om rootComponent s) as [[r om1] s1].
  simpl in *. destruct r; simpl.
  - pose proof (checkAll_asks (deactivations s1) s1)
      as (C2 & P2 & M2 & D2 & calls & T2 & F2).
    repeat split; try congruence.
    exists calls. now rewrite T2, T.
  - repeat split; try assumption. exists []. now rewrite app_nil_r.
Qed.

(** [load], by what the guard phase gave. *)
Lemma load_guardPhase om rootComponent s :
  load instantiate template om rootComponent s =
  match guardPhase instantiate template om rootComponent s with
  | (Thrown e, om1, s1) => (Thrown e, om1, s1)
  | (Returned (Resolved true), om1, s1) =>
      match commitRun instantiate template om1 rootComponent s1 with
      | (Throw e, om2, s3) => (Returned (Rejected e), om2, s3)
      | (Normal, om2, s3) => (Returned (Resolved true), om2, s3)
      end
  | (Returned (Resolved false), om1, s1) =>
      (Returned (Resolved false), om1, set_performMutation true s1)
  | (Returned (Rejected e), om1, s1) => (Returned (Rejected e), om1, s1)
  | (Returned Pending, om1, s1) => (Returned Pending, om1, s1)
  end.
Proof.
  unfold load. fold (guardPhase instantiate template om rootComponent s).
  pose proof (guardPhase_facts om rootComponent s) as (_ & C & P & _).
  destruct (guardPhase instantiate template om rootComponent s) as [[[[[|]| |]|] om1] s1];
    try reflexivity.
  unfold commitRun. simpl in C, P. simpl currTree. simpl prevTree.
  now rewrite C, P.
Qed.

Lemma commitRun_facts om rootComponent s :
  exists muts,
    trace (snd (commitRun instantiate template om rootComponent s)) = trace s ++ muts /\
    forallb is_mutation muts = true /\
    deactivations (snd (commitRun instantiate template om rootComponent s)) = deactivations s.
Proof.
  unfold commitRun.
  destruct (loadChildSegments _ _ _ _ om _ (set_performMutation true s))
    as [[r om1] s1] eqn:E.
  destruct (loadChildSegments_spec _ _ _ _ _ _ _ _ _ _ E)
    as [(_ & _ & _ & (muts & T & F & _) & (paths & D & N)) _].
  simpl in *. exists muts. repeat split; try assumption.
  rewrite D, (N eq_refl). apply app_nil_r.
Qed.

End Passes.

(** * The claims *)

(** ** Guard chains: order and outcome *)

(** The calls of one path, for any path: they are guard calls only, asked
    from the innermost guarded component outwards, and all of them are
    asked when every answer is a boolean. *)
Lemma guard_order_any_path path s :
  exists calls,
    trace (snd (checkCanDeactivatePath path s)) = trace s ++ calls /\
    forallb is_guard calls = true /\
    (exists rest, rev (guarded path) = asked calls ++ rest) /\
    (answers_settle (prevTree s) (currTree s) path = true ->
     asked calls = rev (guarded path)).
Proof.
  unfold checkCanDeactivatePath.
  destruct (deactivateChain_calls (rev path) (Resolved true) s eq_refl)
    as (calls & T & P & Q).
  destruct (deactivateChain_asks (rev path) (Resolved true) s)
    as (_ & _ & _ & _ & calls' & T' & F').
  exists calls. rewrite guarded_rev in P, Q. rewrite answers_settle_rev in Q.
  repeat split; try assumption.
  - rewrite T in T'. apply app_inv_head in T'. now subst.
  - intros St. now apply Q.
Qed.

(** C7. Within one deactivation path [outer, mid, inner] whose three
    components implement the guard, the guards are asked one after the
    other, inner first, then mid, then outer (each one once the one before
    has answered with a boolean). *)
Theorem guard_ordering (outer mid inner : Component) go gm gi bi bm s :
  routerCanDeactivate outer = Some go ->
  routerCanDeactivate mid = Some gm ->
  routerCanDeactivate inner = Some gi ->
  gi (prevTree s) (currTree s) = Resolved bi ->
  gm (prevTree s) (currTree s) = Resolved bm ->
  trace (snd (checkCanDeactivatePath [Some outer; Some mid; Some inner] s)) =
  trace s ++ [EvCanDeactivate (cid inner) (Resolved bi);
              EvCanDeactivate (cid mid) (Resolved bm);
              EvCanDeactivate (cid outer) (go (prevTree s) (currTree s))].
Proof.
  intros Go Gm Gi Ai Am. unfold checkCanDeactivatePath. simpl.
  rewrite Gi, Ai. simpl. rewrite Gm, Am. simpl. rewrite Go. simpl.
  now rewrite <- !app_assoc.
Qed.

Lemma guard_ordering_witness :
  trace (snd (checkCanDeactivatePath
                [Some (mkComponent 7 (Some TeamApp.consents) false);
                 Some (TeamApp.team (Some TeamApp.vetoes));
                 Some (TeamApp.user (Some TeamApp.consents))]
                (TeamApp.fresh TeamApp.at_team33 TeamApp.at_team33_user11))) =
  [EvCanDeactivate 2 (Resolved true); EvCanDeactivate 1 (Resolved false);
   EvCanDeactivate 7 (Resolved true)].
Proof.
  exact (guard_ordering (mkComponent 7 (Some TeamApp.consents) false)
           (TeamApp.team (Some TeamApp.vetoes))
           (TeamApp.user (Some TeamApp.consents))
           TeamApp.consents TeamApp.vetoes TeamApp.consents true false
           (TeamApp.fresh TeamApp.at_team33 TeamApp.at_team33_user11)
           eq_refl eq_refl eq_refl eq_refl eq_refl).
Defined.

(** C1 (the code departs from the claim). On the path [app, team, user]
    the user guard answers false and the team guard, asked after it,
    answers true: the chain resolves to true, the answer of the last guard
    asked, and the earlier false is lost. *)
Theorem inner_veto_is_overridden :
  let path := [Some TeamApp.app; Some (TeamApp.team (Some TeamApp.consents));
               Some (TeamApp.user (Some TeamApp.vetoes))] in
  let s := TeamApp.fresh TeamApp.at_team33 TeamApp.at_team33_user11 in
  fst (checkCanDeactivatePath path s) = Resolved true /\
  trace (snd (checkCanDeactivatePath path s)) =
  [EvCanDeactivate 2 (Resolved false); EvCanDeactivate 1 (Resolved true)].
Proof. split; reflexivity. Qed.

(** ** Collected paths *)


(** ** Veto and commit *)

(** C2 (the code departs from the claim). Navigating from
    /team/33/user/11 to /team/33 while the user guard answers false and the
    team guard answers true: the user component is unloaded all the same,
    the accepted tree is replaced and a change is published. *)
Theorem veto_does_not_block_commit :
  let r := TeamApp.router (TeamApp.team (Some TeamApp.consents))
                          (TeamApp.user (Some TeamApp.vetoes)) in
  let result := TeamApp.navigate (TeamApp.recognizes TeamApp.at_team33)
                  TeamApp.serialize r (TeamApp.url ["team"; "33"]) in
  fst result = Resolved VUndefined /\
  history (snd result) =
    [EvCanDeactivate 2 (Resolved false); EvCanDeactivate 1 (Resolved true);
     EvUnload 2; EvLocationGo "/team/33"; EvChange] /\
  routeTree (snd result) = TeamApp.at_team33 /\
  routeTree (snd result) <> routeTree r.
Proof.
  repeat split; try reflexivity. discriminate.
Qed.

(** ** The chains of the collected paths *)

Lemma add_calls_nil s : add_calls [] s = s.
Proof. destruct s. unfold add_calls. simpl. now rewrite app_nil_r. Qed.

Lemma add_calls_add cs cs' s :
  add_calls cs' (add_calls cs s) = add_calls (cs ++ cs') s.
Proof. unfold add_calls. simpl. now rewrite app_assoc. Qed.

(** A chain reads the state for the two trees only: from two states with
    the same trees it has the same value and adds the same calls. *)
Lemma deactivateChain_frame ps : forall curr s s',
  currTree s' = currTree s -> prevTree s' = prevTree s ->
  exists cs,
    deactivateChain ps curr s = (fst (deactivateChain ps curr s), add_calls cs s) /\
    deactivateChain ps curr s' = (fst (deactivateChain ps curr s), add_calls cs s').
Proof.
  induction ps as [|p ps IH]; intros curr s s' C P.
  - exists []. simpl. now rewrite !add_calls_nil.
  - assert (St : exists cs,
               deactivateStep p curr s = (fst (deactivateStep p curr s), add_calls cs s) /\
               deactivateStep p curr s' = (fst (deactivateStep p curr s), add_calls cs s')).
    { unfold deactivateStep.
      destruct curr as [v|e|]; try (exists []; now rewrite !add_calls_nil).
      destruct p as [c|]; try (exists []; now rewrite !add_calls_nil).
      destruct (routerCanDeactivate c) as [g|];
        try (exists []; now rewrite !add_calls_nil).
      rewrite C, P.
      now exists [EvCanDeactivate (cid c) (g (prevTree s) (currTree s))]. }
    destruct St as (cs1 & E1 & E1'). simpl. rewrite E1, E1'.
    destruct (IH (fst (deactivateStep p curr s)) (add_calls cs1 s)
                 (add_calls cs1 s') C P) as (cs2 & E2 & E2').
    exists (cs1 ++ cs2). rewrite E2, E2'. simpl. now rewrite !add_calls_add.
Qed.

(** [checkAll] is the chain of each path in turn: the value of each
    collected path's chain, and one run of calls per path. *)
Lemma checkAll_per_path paths : forall s0 s,
  currTree s = currTree s0 -> prevTree s = prevTree s0 ->
  exists per_path,
    Forall2 (fun path block =>
               trace (snd (checkCanDeactivatePath path s0)) = trace s0 ++ block)
            paths per_path /\
    fst (checkAll paths s)
    = map (fun path => fst (checkCanDeactivatePath path s0)) paths /\
    snd (checkAll paths s) = add_calls (List.concat per_path) s.
Proof.
  induction paths as [|path paths IH]; intros s0 s C P.
  - exists []. simpl. rewrite add_calls_nil. now repeat split.
  - destruct (deactivateChain_frame (rev path) (Resolved true) s0 s C P)
      as (cs & E0 & E).
    destruct (IH s0 (add_calls cs s) C P) as (per_path & F & V & T).
    assert (Eq : checkAll (path :: paths) s =
                 (fst (checkCanDeactivatePath path s0)
                    :: fst (checkAll paths (add_calls cs s)),
                  snd (checkAll paths (add_calls cs s)))).
    { simpl. unfold checkCanDeactivatePath. rewrite E.
      now destruct (checkAll paths (add_calls cs s)). }
    exists (cs :: per_path). rewrite Eq. cbn [fst snd map List.concat].
    repeat split.
    + constructor; [|exact F]. unfold checkCanDeactivatePath. now rewrite E0.
    + now rewrite V.
    + now rewrite T, add_calls_add.
Qed.

(** ** The two phases *)

(** C8. Within one reconciliation the first walk changes no outlet and
    calls nothing: it only collects paths.  The guard calls come next: when
    the first walk completed they are, path for path, the calls of the
    chain of every collected path (in the program the chains of different
    paths run interleaved, hence a permutation), and none when it threw.
    The mounts and unmounts come after all of them; there are any only when
    the first walk completed and the chain of every collected path resolved
    (to true). *)
Theorem guards_before_mutations instantiate template om rootComponent s :
  let dry := dryRun instantiate template om rootComponent s in
  let checked := guardPhase instantiate template om rootComponent s in
  let done := load instantiate template om rootComponent s in
  let paths := deactivations (snd dry) in
  (snd (fst dry) = om /\ trace (snd dry) = trace s) /\
  exists per_path calls muts,
    Forall2 (fun path block =>
               trace (snd (checkCanDeactivatePath path (snd dry)))
               = trace (snd dry) ++ block)
            paths per_path /\
    (fst (fst dry) = Normal -> Permutation calls (List.concat per_path)) /\
    (fst (fst dry) <> Normal -> calls = []) /\
    trace (snd checked) = trace s ++ calls /\
    forallb is_guard calls = true /\
    snd (fst checked) = om /\
    trace (snd done) = trace s ++ calls ++ muts /\
    forallb is_mutation muts = true /\
    (muts <> [] \/ snd (fst done) <> om ->
     fst (fst dry) = Normal /\
     Forall (fun path =>
               fst (checkCanDeactivatePath path (snd dry)) = Resolved true)
            paths).
Proof.
  cbv zeta.
  pose proof (dryRun_pure instantiate template om rootComponent s)
    as (Kd & Td & _).
  split; [now split|].
  pose proof (guardPhase_facts instantiate template om rootComponent s)
    as (K & _ & _ & calls & T & F).
  pose proof (guardPhase_dryRun instantiate template om rootComponent s) as E.
  rewrite load_guardPhase.
  destruct (dryRun instantiate template om rootComponent s) as [[rd omd] sd].
  cbn [fst snd] in *. subst omd.
  destruct (checkAll_per_path (deactivations sd) sd sd eq_refl eq_refl)
    as (per_path & F2 & V & Tc).
  exists per_path, calls.
  destruct rd as [|ed].
  - (* the first walk completed *)
    rewrite E. cbn [fst snd]. rewrite E in T. cbn [snd] in T.
    assert (Ec : calls = List.concat per_path).
    { rewrite Tc in T. unfold add_calls in T. cbn [trace] in T.
      rewrite Td in T. apply app_inv_head in T. now symmetry. }
    assert (Pm : Normal = Normal -> Permutation calls (List.concat per_path))
      by (intros _; rewrite Ec; apply Permutation_refl).
    assert (Nn : Normal <> Normal -> calls = []) by (intros N; now elim N).
    rewrite V.
    destruct (then_ (PromiseWrapper_all
                       (map (fun path => fst (checkCanDeactivatePath path sd))
                            (deactivations sd)))
                    (fun values => Resolved (all_consent values)))
      as [[|]|e|] eqn:A.
    + destruct (commitRun_facts instantiate template om rootComponent
                  (snd (checkAll (deactivations sd) sd)))
        as (muts & Tm & Fm & _).
      exists muts.
      assert (Tr : trace (snd (match commitRun instantiate template om rootComponent
                                       (snd (checkAll (deactivations sd) sd)) with
                               | (Normal, om2, s3) => (Returned (Resolved true), om2, s3)
                               | (Throw e, om2, s3) => (Returned (Rejected e), om2, s3)
                               end)) = trace s ++ calls ++ muts).
      { destruct (commitRun instantiate template om rootComponent _)
          as [[[|e] om2] s3]; cbn [fst snd] in *; now rewrite Tm, T, app_assoc. }
      apply consent_all_resolved_true in A. rewrite Forall_map in A.
      refine (conj F2 (conj Pm (conj Nn (conj T (conj F (conj eq_refl
                (conj Tr (conj Fm _)))))))).
      intros _. now split.
    + exists []. cbn [fst snd trace set_performMutation]. rewrite app_nil_r.
      refine (conj F2 (conj Pm (conj Nn (conj T (conj F (conj eq_refl
                (conj T (conj eq_refl _)))))))).
      intros [H|H]; now elim H.
    + exists []. cbn [fst snd]. rewrite app_nil_r.
      refine (conj F2 (conj Pm (conj Nn (conj T (conj F (conj eq_refl
                (conj T (conj eq_refl _)))))))).
      intros [H|H]; now elim H.
    + exists []. cbn [fst snd]. rewrite app_nil_r.
      refine (conj F2 (conj Pm (conj Nn (conj T (conj F (conj eq_refl
                (conj T (conj eq_refl _)))))))).
      intros [H|H]; now elim H.
  - (* the first walk threw *)
    rewrite E. cbn [fst snd]. rewrite E in T. cbn [snd] in T.
    assert (Ec : calls = []).
    { rewrite Td in T. rewrite <- (app_nil_r (trace s)) in T at 1.
      apply app_inv_head in T. now symmetry. }
    exists []. cbn [fst snd]. rewrite app_nil_r.
    refine (conj F2 (conj _ (conj (fun _ => Ec) (conj T (conj F (conj eq_refl
              (conj T (conj eq_refl _)))))))).
    + discriminate.
    + intros [H|H]; now elim H.
Qed.

(** ** Navigation outcomes *)

Section Navigation.
Variable instantiate : RouteSegment -> Component.
Variable template : RouteSegment -> list string.
Variable recognize : UrlTree -> Promise RouteTree.
Variable serialize : UrlTree -> string.

Lemma navigate_thrown_in_dryRun r url t e :
  recognize url = Resolved t ->
  fst (fst (dryRun instantiate template (Some (_routerOutletMap r))
              (_rootComponent r) (starting r t))) = Throw e ->
  _navigate instantiate template recognize serialize r url =
  (Rejected e, url_stored r url (history r)).
Proof.
  intros R D. unfold _navigate. rewrite R. simpl.
  fold (starting r t). rewrite load_guardPhase, guardPhase_dryRun.
  pose proof (dryRun_pure instantiate template (Some (_routerOutletMap r))
                (_rootComponent r) (starting r t)) as (K & T & _).
  destruct (dryRun _ _ _ _ _) as [[rd omd] sd]. simpl in *. subst.
  now rewrite T.
Qed.

Lemma navigate_vetoed r url t :
  recognize url = Resolved t ->
  fst (fst (guardPhase instantiate template (Some (_routerOutletMap r))
              (_rootComponent r) (starting r t))) = Returned (Resolved false) ->
  exists calls,
    forallb is_guard calls = true /\
    _navigate instantiate template recognize serialize r url =
    (Resolved VUndefined, url_stored r url (history r ++ calls)).
Proof.
  intros R G. unfold _navigate. rewrite R. simpl.
  fold (starting r t). rewrite load_guardPhase.
  pose proof (guardPhase_facts instantiate template (Some (_routerOutletMap r))
                (_rootComponent r) (starting r t)) as (K & _ & _ & calls & T & F).
  destruct (guardPhase _ _ _ _ _) as [[out om1] s1]. simpl in *. subst.
  exists calls. split; [assumption|]. simpl. now rewrite T.
Qed.

End Navigation.

(** C4, as stated, fails: at /team/33/user/11 the user guard vetoes the
    navigation to /team/33/user/22; the promise resolves with [undefined],
    not with the boolean false, and the url tree of the router has become
    the candidate's. *)
Lemma veto_outcome_counterexample :
  let r := TeamApp.router (TeamApp.team None) (TeamApp.user (Some TeamApp.vetoes)) in
  let result := TeamApp.navigate (TeamApp.recognizes TeamApp.at_team33_user22)
                  TeamApp.serialize r (TeamApp.url ["team"; "33"; "user"; "22"]) in
  In (EvCanDeactivate 2 (Resolved false)) (history (snd result)) /\
  fst result <> Resolved (VBool false) /\
  urlTree (snd result) <> urlTree r.
Proof.
  repeat split; [now left | discriminate | discriminate].
Qed.

(** C4, amended. When the deactivation check of a navigation resolves
    false, the promise of [_navigate] resolves (with [undefined]); nothing
    is mounted or unmounted, no location change and no change notification
    are issued (only guards have been called), and the route tree is the
    one before; the url tree is the candidate's. *)
Theorem veto_resolves_without_commit instantiate template recognize serialize
    (r : Router) (url : UrlTree) (t : RouteTree) :
  recognize url = Resolved t ->
  fst (fst (guardPhase instantiate template (Some (_routerOutletMap r))
              (_rootComponent r) (starting r t))) = Returned (Resolved false) ->
  let result := _navigate instantiate template recognize serialize r url in
  fst result = Resolved VUndefined /\
  routeTree (snd result) = routeTree r /\
  _routerOutletMap (snd result) = _routerOutletMap r /\
  urlTree (snd result) = Some url /\
  exists calls, history (snd result) = history r ++ calls /\
                forallb is_guard calls = true.
Proof.
  intros R G.
  destruct (navigate_vetoed instantiate template recognize serialize r url t R G)
    as (calls & F & E).
  cbv zeta. rewrite E. simpl. repeat split. now exists calls.
Qed.

Lemma veto_resolves_without_commit_witness :
  let r := TeamApp.router (TeamApp.team None) (TeamApp.user (Some TeamApp.vetoes)) in
  let result := TeamApp.navigate (TeamApp.recognizes TeamApp.at_team33_user22)
                  TeamApp.serialize r (TeamApp.url ["team"; "33"; "user"; "22"]) in
  fst result = Resolved VUndefined /\
  routeTree (snd result) = routeTree r /\
  _routerOutletMap (snd result) = _routerOutletMap r /\
  urlTree (snd result) = Some (TeamApp.url ["team"; "33"; "user"; "22"]) /\
  exists calls, history (snd result) = history r ++ calls /\
                forallb is_guard calls = true.
Proof.
  exact (veto_resolves_without_commit TeamApp.instantiate TeamApp.template
           (TeamApp.recognizes TeamApp.at_team33_user22) TeamApp.serialize
           (TeamApp.router (TeamApp.team None) (TeamApp.user (Some TeamApp.vetoes)))
           (TeamApp.url ["team"; "33"; "user"; "22"]) TeamApp.at_team33_user22
           eq_refl eq_refl).
Defined.

(** C5, as stated, fails: when recognition fails the url tree of the
    router is no longer the one before the call. *)
Lemma recognition_failure_counterexample :
  let r := TeamApp.router (TeamApp.team None) (TeamApp.user None) in
  let u := TeamApp.url ["nowhere"] in
  let result := TeamApp.navigate TeamApp.no_match TeamApp.serialize r u in
  TeamApp.no_match u = Rejected (Failure "Cannot match any routes") /\
  urlTree (snd result) <> urlTree r.
Proof. split; [reflexivity | discriminate]. Qed.

(** C5, amended. When recognition of the candidate address fails, the
    navigation promise rejects with that failure; the route tree, the
    outlets with what is mounted in them and the history of calls are
    exactly as before; the url tree is the candidate's. *)
Theorem recognition_failure_rejects instantiate template recognize serialize
    (r : Router) (url : UrlTree) (e : Error) :
  recognize url = Rejected e ->
  _navigate instantiate template recognize serialize r url =
  (Rejected e,
   mkRouter (_prevTree r) (Some url) (_routerOutletMap r) (_rootComponent r)
            (history r)).
Proof. intros R. unfold _navigate. now rewrite R. Qed.

Lemma recognition_failure_rejects_witness :
  let r := TeamApp.router (TeamApp.team None) (TeamApp.user None) in
  TeamApp.navigate TeamApp.no_match TeamApp.serialize r (TeamApp.url ["nowhere"]) =
  (Rejected (Failure "Cannot match any routes"),
   mkRouter (_prevTree r) (Some (TeamApp.url ["nowhere"])) (_routerOutletMap r)
            (_rootComponent r) (history r)).
Proof.
  exact (recognition_failure_rejects TeamApp.instantiate TeamApp.template
           TeamApp.no_match TeamApp.serialize
           (TeamApp.router (TeamApp.team None) (TeamApp.user None))
           (TeamApp.url ["nowhere"]) (Failure "Cannot match any routes") eq_refl).
Defined.

(** ** Slots that are missing or empty *)

(** C10. A previous node slated for removal whose slot is not in the
    registry, or holds no loaded component, is passed over, whatever the
    pass ([s] is any state, with mutation enabled or not): [unloadOutlet]
    returns with the outlet and the state as they were (no path collected
    for a guard, no unload), and the loop over the unclaimed previous
    children goes on to the next one with the registry unchanged. *)
Theorem empty_slot_removal_is_noop (registry : RouterOutletMap) (k : string)
    (components : list Obj) (s : LoadSegments) :
  (lookup k registry = None \/
   exists o, lookup k registry = Some o /\ isLoaded o = false) ->
  unloadOutlet (lookup k registry) components s = (Normal, lookup k registry, s) /\
  forall n rest,
    unloadRemaining ((k, n) :: rest) (Some registry) components s =
    unloadRemaining rest (Some registry) components s.
Proof.
  intros [L | (o & L & E)].
  - rewrite L. split; [reflexivity|]. intros n rest. simpl. now rewrite L.
  - assert (U : unloadOutlet (Some o) components s = (Normal, Some o, s)).
    { destruct o as [[c|] m]; [discriminate E|]. reflexivity. }
    rewrite L. split; [exact U|]. intros n rest. simpl. rewrite L, U.
    unfold put. now rewrite (lookup_assign_same _ _ _ L).
Qed.

Lemma empty_slot_removal_is_noop_witness :
  let registry := [(DEFAULT_OUTLET_NAME, mkRouterOutlet None (Some []))] in
  let s := TeamApp.fresh TeamApp.at_root TeamApp.at_team33 in
  unloadOutlet (lookup DEFAULT_OUTLET_NAME registry) [Some TeamApp.app] s =
    (Normal, lookup DEFAULT_OUTLET_NAME registry, s) /\
  forall n rest,
    unloadRemaining ((DEFAULT_OUTLET_NAME, n) :: rest) (Some registry)
                    [Some TeamApp.app] s =
    unloadRemaining rest (Some registry) [Some TeamApp.app] s.
Proof.
  exact (empty_slot_removal_is_noop
           [(DEFAULT_OUTLET_NAME, mkRouterOutlet None (Some []))]
           DEFAULT_OUTLET_NAME [Some TeamApp.app]
           (TeamApp.fresh TeamApp.at_root TeamApp.at_team33)
           (or_intror (ex_intro _ (mkRouterOutlet None (Some []))
                                (conj eq_refl eq_refl)))).
Defined.

Section MissingSlot.
Variable instantiate : RouteSegment -> Component.
Variable template : RouteSegment -> list string.

Lemma loadSegments_missing_outlet rec c p m components s :
  lookup (outlet (value c)) m = None ->
  loadSegments_with instantiate template rec c p (Some m) components s =
  (Throw (cannot_find (outlet (value c))), Some m, s).
Proof.
  intros L. unfold loadSegments_with, getOutlet, cannot_find. rewrite L.
  now destruct (String.eqb _ _).
Qed.

(** A visit never registers a slot in the registry it is given. *)
Lemma loadSegments_keeps_absent rec c p m components s r om' s' k :
  loadSegments_with instantiate template rec c p (Some m) components s
  = (r, om', s') ->
  lookup k m = None ->
  exists m', om' = Some m' /\ lookup k m' = None.
Proof.
  unfold loadSegments_with. intros E L.
  destruct (getOutlet (Some m) (value c)) as [e|o] eqn:G.
  { injection E as _ <- _. now exists m. }
  destruct (getOutlet_inr _ _ _ G) as (m0 & [= <-] & Lo).
  assert (P : forall o', exists m', put_in (outlet (value c)) o' (Some m) = Some m'
                                   /\ lookup k m' = None).
  { intros o'. eexists; split; [reflexivity|].
    apply lookup_assign_other; [congruence | assumption]. }
  destruct (equalSegments _ _).
  - destruct (rec p _ _ s) as [[r1 m1] s1]. injection E as _ <- _. apply P.
  - destruct (unloadOutlet_present o components s) as [[[|e] o1] s1].
    + destruct (performMutation s1).
      * destruct (loadNewSegment _ _ _ _ _ _) as [[inst o2] s2].
        destruct (rec p _ _ s2) as [[r3 m3] s3]. injection E as _ <- _. apply P.
      * injection E as _ <- _. apply P.
    + injection E as _ <- _. apply P.
Qed.

Lemma forEachChild_missing_outlet rec components cs : forall m prevChildren s,
  (exists c, In c cs /\ lookup (outlet (value c)) m = None) ->
  exists e,
    fst (fst (fst (forEachChild
      (fun c p om' s' =>
         loadSegments_with instantiate template (rec c) c p om' components s')
      cs prevChildren (Some m) s))) = Throw e.
Proof.
  induction cs as [|c0 cs IH]; intros m prevChildren s (c & I & L).
  - destruct I.
  - simpl.
    destruct (loadSegments_with instantiate template (rec c0) c0
                (lookup (outlet (value c0)) prevChildren) (Some m) components s)
      as [[[|e] om1] s1] eqn:E.
    + destruct (loadSegments_keeps_absent _ _ _ _ _ _ _ _ _ _ E L)
        as (m1 & -> & L1).
      destruct I as [<- | I].
      * rewrite loadSegments_missing_outlet in E by exact L. discriminate E.
      * apply IH. now exists c.
    + now exists e.
Qed.

(** Nor do the visits of any number of children. *)
Lemma forEachChild_keeps_absent rec components cs :
  forall m prevChildren s r remaining om1 s1 k,
  forEachChild
    (fun c p om' s' =>
       loadSegments_with instantiate template (rec c) c p om' components s')
    cs prevChildren (Some m) s = (r, remaining, om1, s1) ->
  lookup k m = None ->
  exists m1, om1 = Some m1 /\ lookup k m1 = None.
Proof.
  induction cs as [|c0 cs IH]; intros m prevChildren s r remaining om1 s1 k E L.
  - injection E as _ _ <- _. now exists m.
  - simpl in E.
    destruct (loadSegments_with instantiate template (rec c0) c0
                (lookup (outlet (value c0)) prevChildren) (Some m) components s)
      as [[[|e] om2] s2] eqn:V.
    + destruct (loadSegments_keeps_absent _ _ _ _ _ _ _ _ _ _ V L)
        as (m2 & -> & L2).
      eapply IH; eassumption.
    + injection E as _ _ <- _.
      exact (loadSegments_keeps_absent _ _ _ _ _ _ _ _ _ _ V L).
Qed.

Lemma loadChildSegments_missing_outlet node prevNode m components s :
  (exists c, In c (children node) /\ lookup (outlet (value c)) m = None) ->
  exists e,
    fst (fst (loadChildSegments instantiate template node prevNode (Some m)
                components s)) = Throw e.
Proof.
  destruct node as [v cs]. intros H. simpl.
  destruct (forEachChild_missing_outlet
              (loadChildSegments instantiate template) components cs m
              (prevChildrenOf prevNode) s H) as (e & E).
  destruct (forEachChild _ cs _ _ _) as [[[r rem] om1] s1]. simpl in E.
  subst r. now exists e.
Qed.

End MissingSlot.

(** A throw in the commit walk is a rejected navigation as well. *)
Lemma navigate_thrown_in_commit instantiate template recognize serialize
    (r : Router) (url : UrlTree) (t : RouteTree) (e : Error) :
  recognize url = Resolved t ->
  let checked := guardPhase instantiate template (Some (_routerOutletMap r))
                   (_rootComponent r) (starting r t) in
  fst (fst checked) = Returned (Resolved true) ->
  fst (fst (commitRun instantiate template (Some (_routerOutletMap r))
              (_rootComponent r) (snd checked))) = Throw e ->
  fst (_navigate instantiate template recognize serialize r url) = Rejected e /\
  routeTree (snd (_navigate instantiate template recognize serialize r url))
  = routeTree r.
Proof.
  cbv zeta. intros R G C. unfold _navigate. rewrite R. simpl.
  fold (starting r t). rewrite load_guardPhase.
  pose proof (guardPhase_facts instantiate template (Some (_routerOutletMap r))
                (_rootComponent r) (starting r t)) as (K & _).
  destruct (guardPhase _ _ _ _ _) as [[out om1] s1]. simpl in *. subst.
  destruct (commitRun _ _ _ _ _) as [[rc om2] s3]. simpl in C. subst rc.
  now split.
Qed.

(** ** Calls that the walk gets to *)

Section Reaching.
Variable instantiate : RouteSegment -> Component.
Variable template : RouteSegment -> list string.

Lemma forEachChild_app visit before : forall rest prevChildren om s,
  forEachChild visit (before ++ rest) prevChildren om s =
  match forEachChild visit before prevChildren om s with
  | (Normal, remaining, om1, s1) => forEachChild visit rest remaining om1 s1
  | (Throw e, remaining, om1, s1) => (Throw e, remaining, om1, s1)
  end.
Proof.
  induction before as [|c before IH]; intros rest prevChildren om s; simpl.
  - reflexivity.
  - destruct (visit c _ om s) as [[[|e] om1] s1]; [apply IH | reflexivity].
Qed.

(** Nothing on the way catches an exception: when the call that [a] makes
    throws, [a] throws the same, with nothing done in between. *)
Lemma makes_throw a b e :
  makes instantiate template a b ->
  fst (fst (run instantiate template b)) = Throw e ->
  fst (fst (run instantiate template a)) = Throw e /\
  snd (run instantiate template a) = snd (run instantiate template b).
Proof.
  intros M. destruct M as
    [currNode prevNode om components s before c after remaining om1 s1 Ch F
    |currNode prevNode om components s o G Eq
    |currNode prevNode om components s o o1 s1 instance o2 s2 G Eq U P L];
    cbn [run]; intros T.
  - destruct currNode as [v cs]. cbn [children] in Ch. subst cs.
    cbn [loadChildSegments].
    change (fun c0 p om' s' =>
              loadSegments_with instantiate template
                (loadChildSegments instantiate template c0) c0 p om' components s')
      with (fun c' p' om' s' =>
              loadSegments instantiate template c' p' om' components s').
    rewrite forEachChild_app, F. cbn [forEachChild].
    destruct (loadSegments instantiate template c
                (lookup (outlet (value c)) remaining) om1 components s1)
      as [[r om2] s2].
    cbn [fst snd] in T. subst r. now split.
  - unfold loadSegments, loadSegments_with. rewrite G, Eq.
    destruct (loadChildSegments instantiate template currNode prevNode
                (outletMap o) (components ++ [loadedComponent o]) s)
      as [[r m'] s'].
    cbn [fst snd] in *. now split.
  - unfold loadSegments, loadSegments_with. rewrite G, Eq, U, P, L.
    destruct (loadChildSegments instantiate template currNode prevNode
                (outletMap o2) (components ++ [Some instance]) s2)
      as [[r m'] s'].
    cbn [fst snd] in *. now split.
Qed.

Lemma reaches_throw a b e :
  reaches instantiate template a b ->
  fst (fst (run instantiate template b)) = Throw e ->
  fst (fst (run instantiate template a)) = Throw e /\
  snd (run instantiate template a) = snd (run instantiate template b).
Proof.
  induction 1 as [a|a b c M R IH]; intros T; [now split|].
  destruct (IH T) as [Tb Sb].
  destruct (makes_throw a b e M Tb) as [Ta Sa].
  split; [exact Ta | congruence].
Qed.

Variable recognize : UrlTree -> Promise RouteTree.
Variable serialize : UrlTree -> string.

(** A throw of the second walk rejects the navigation; the router keeps
    its route tree and the history ends with the throw. *)
Lemma navigate_second_walk_throws (r : Router) (url : UrlTree) (t : RouteTree) e :
  recognize url = Resolved t ->
  consented instantiate template r t ->
  fst (fst (run instantiate template (second_walk instantiate template r t)))
  = Throw e ->
  let result := _navigate instantiate template recognize serialize r url in
  fst result = Rejected e /\
  routeTree (snd result) = routeTree r /\
  urlTree (snd result) = Some url /\
  history (snd result)
  = trace (snd (run instantiate template (second_walk instantiate template r t))).
Proof.
  cbv zeta. unfold consented, second_walk, run. intros R G W.
  unfold _navigate. rewrite R. cbn [_prevTree _routerOutletMap _rootComponent history].
  fold (starting r t). rewrite load_guardPhase.
  pose proof (guardPhase_facts instantiate template (Some (_routerOutletMap r))
                (_rootComponent r) (starting r t)) as (K & C & P & _).
  destruct (guardPhase _ _ _ _ _) as [[out om1] s1]. cbn [fst snd] in *.
  subst out om1. unfold commitRun. rewrite C, P.
  cbn [starting new_LoadSegments currTree prevTree option_map].
  destruct (loadChildSegments _ _ _ _ _ _ _) as [[rc om2] s3].
  cbn [fst snd] in *. subst rc. now repeat split.
Qed.

End Reaching.

(** C9, as stated, fails. At /team/33/user/11 the candidate tree is
    /team/44 with a child for the slot "aux"; no registry holds an outlet of
    that name (neither the one now under the parent's slot nor the one the
    template of team 44 would register in), and the user's guard vetoes.
    The node team 44 differs from team 33, so the first walk does not go
    below it, and the second walk is not run: the navigation resolves,
    with the guard call as the only thing done. *)
Lemma missing_slot_counterexample :
  let r := TeamApp.router (TeamApp.team None) (TeamApp.user (Some TeamApp.vetoes)) in
  let u := TeamApp.url ["team"; "44"; "chat"] in
  let result := TeamApp.navigate (TeamApp.recognizes TeamApp.at_team44_chat)
                  TeamApp.serialize r u in
  In (Node TeamApp.team44 [Node TeamApp.chat []])
     (children (rootNode TeamApp.at_team44_chat)) /\
  ~ In (outlet TeamApp.chat) (TeamApp.template TeamApp.team44) /\
  (forall o m, lookup (outlet TeamApp.team44) (_routerOutletMap r) = Some o ->
               outletMap o = Some m -> lookup (outlet TeamApp.chat) m = None) /\
  fst result = Resolved VUndefined /\
  (forall e, fst result <> Rejected e) /\
  history (snd result) = [EvCanDeactivate 2 (Resolved false)].
Proof.
  cbv zeta. split; [now left|]. split.
  { intros [H|[]]. discriminate H. }
  split.
  { intros o m L M. cbn in L. injection L as <-. cbn in M. injection M as <-.
    reflexivity. }
  split; [reflexivity|]. split; [discriminate | reflexivity].
Qed.

(** C9, amended. When a walk gets to a candidate node with a registry
    that holds no outlet for the slot of one of its children (an ordinary
    name, like those of the registry), [loadSegments] throws the "Cannot
    find ..." exception for that child and the walk ends in an exception
    that nothing catches: the navigation promise is rejected (not
    resolved), the route tree stays the one before and the url tree is the
    candidate's; when the children before that child were visited without
    an exception, the promise is rejected with the exception for its slot
    and nothing is done after the throw (no retry, no location change, no
    notification).  In the first walk the outlets and the history are as
    they were as well.  The first walk gets to the children of reused
    nodes only; a node below a replaced node is reached in the second
    walk, which runs only when every check of the guard phase has
    consented. *)
Theorem missing_slot_is_fatal instantiate template recognize serialize
    (r : Router) (url : UrlTree) (t : RouteTree)
    (node : TreeNode RouteSegment) (prevNode : option (TreeNode RouteSegment))
    (m : RouterOutletMap) (components : list Obj) (s : LoadSegments)
    (c : TreeNode RouteSegment) :
  recognize url = Resolved t ->
  reaches instantiate template (first_walk r t)
          (CallLoadChildSegments node prevNode (Some m) components s) \/
  (consented instantiate template r t /\
   reaches instantiate template (second_walk instantiate template r t)
           (CallLoadChildSegments node prevNode (Some m) components s)) ->
  In c (children node) ->
  ordinary (outlet (value c)) = true ->
  forallb ordinary (keys m) = true ->
  lookup (outlet (value c)) m = None ->
  let result := _navigate instantiate template recognize serialize r url in
  (forall p s',
     loadSegments instantiate template c p (Some m) components s'
     = (Throw (cannot_find (outlet (value c))), Some m, s')) /\
  exists e,
    fst result = Rejected e /\
    routeTree (snd result) = routeTree r /\
    urlTree (snd result) = Some url /\
    (reaches instantiate template (first_walk r t)
             (CallLoadChildSegments node prevNode (Some m) components s) ->
     snd result = url_stored r url (history r)) /\
    (forall before after remaining om1 s1,
       children node = before ++ c :: after ->
       forEachChild
         (fun c' p' om' s' =>
            loadSegments instantiate template c' p' om' components s')
         before (prevChildrenOf prevNode) (Some m) s
       = (Normal, remaining, om1, s1) ->
       e = cannot_find (outlet (value c)) /\ history (snd result) = trace s1).
Proof.
  intros R W I _ _ L. cbv zeta.
  split.
  { intros p s'. now apply loadSegments_missing_outlet. }
  set (parent := CallLoadChildSegments node prevNode (Some m) components s) in *.
  destruct (loadChildSegments_missing_outlet instantiate template node prevNode
              m components s) as (e & T); [now exists c|].
  change (fst (fst (run instantiate template parent)) = Throw e) in T.
  assert (First : reaches instantiate template (first_walk r t) parent ->
                  _navigate instantiate template recognize serialize r url
                  = (Rejected e, url_stored r url (history r)) /\
                  history r = trace (snd (run instantiate template parent))).
  { intros W1.
    destruct (reaches_throw instantiate template _ _ e W1 T) as [Ta Sa].
    pose proof (dryRun_pure instantiate template (Some (_routerOutletMap r))
                  (_rootComponent r) (starting r t)) as (_ & Tr & _).
    split.
    - now apply (navigate_thrown_in_dryRun _ _ _ _ _ _ t).
    - rewrite <- Sa. symmetry. exact Tr. }
  assert (H : fst (_navigate instantiate template recognize serialize r url)
              = Rejected e /\
              routeTree (snd (_navigate instantiate template recognize serialize
                                r url)) = routeTree r /\
              urlTree (snd (_navigate instantiate template recognize serialize
                              r url)) = Some url /\
              history (snd (_navigate instantiate template recognize serialize
                              r url))
              = trace (snd (run instantiate template parent))).
  { destruct W as [W1 | [G W2]].
    - destruct (First W1) as [E H]. rewrite E. cbn [fst snd].
      repeat split. exact H.
    - destruct (reaches_throw instantiate template _ _ e W2 T) as [Ta Sa].
      destruct (navigate_second_walk_throws instantiate template recognize
                  serialize r url t _ R G Ta) as (N1 & N2 & N3 & N4).
      rewrite Sa in N4. now repeat split. }
  destruct H as (H1 & H2 & H3 & H4).
  exists e.
  refine (conj H1 (conj H2 (conj H3 (conj _ _)))).
  - intros W1. now destruct (First W1) as [-> _].
  - intros before after remaining om1 s1 Ch F.
    destruct (forEachChild_keeps_absent instantiate template
                (loadChildSegments instantiate template) components before
                _ _ _ _ _ _ _ (outlet (value c)) F L) as (m1 & -> & L1).
    pose proof (makes_visit instantiate template node prevNode (Some m)
                  components s before c after remaining (Some m1) s1 Ch F) as M.
    assert (Tc : run instantiate template
                   (CallLoadSegments c (lookup (outlet (value c)) remaining)
                                     (Some m1) components s1)
                 = (Throw (cannot_find (outlet (value c))), Some m1, s1))
      by now apply loadSegments_missing_outlet.
    destruct (makes_throw instantiate template _ _
                (cannot_find (outlet (value c))) M) as [Tp Sp];
      [now rewrite Tc|].
    fold parent in Tp, Sp. rewrite Tc in Sp. cbn [snd] in Sp.
    split; [congruence|]. now rewrite H4, Sp.
Qed.

Lemma missing_slot_is_fatal_witness :
  let r := TeamApp.router (TeamApp.team None) (TeamApp.user None) in
  let u := TeamApp.url ["team"; "44"; "chat"] in
  let result := TeamApp.navigate (TeamApp.recognizes TeamApp.at_team44_chat)
                  TeamApp.serialize r u in
  fst result = Rejected (BaseException "Cannot find the outlet aux") /\
  routeTree (snd result) = routeTree r /\
  history (snd result) = [EvUnload 2; EvUnload 1; EvLoad TeamApp.team44 12].
Proof.
  cbv zeta.
  pose (r := TeamApp.router (TeamApp.team None) (TeamApp.user None)).
  pose (s := mkLoadSegments TeamApp.at_team44_chat (Some TeamApp.at_team33_user11)
               [[Some TeamApp.app; Some (TeamApp.user None)];
                [Some TeamApp.app; Some (TeamApp.team None)]]
               true [EvUnload 2; EvUnload 1; EvLoad TeamApp.team44 12]).
  assert (W : reaches TeamApp.instantiate TeamApp.template
                (second_walk TeamApp.instantiate TeamApp.template r
                             TeamApp.at_team44_chat)
                (CallLoadChildSegments (Node TeamApp.team44 [Node TeamApp.chat []])
                   (Some (Node TeamApp.team33 [Node TeamApp.user11 []]))
                   (Some (registered [DEFAULT_OUTLET_NAME]))
                   [Some TeamApp.app; Some (TeamApp.instantiate TeamApp.team44)]
                   s)).
  { eapply reaches_on.
    { apply (makes_visit _ _ _ _ _ _ _ []
               (Node TeamApp.team44 [Node TeamApp.chat []]) []); reflexivity. }
    eapply reaches_on.
    { eapply makes_replace; reflexivity. }
    apply reaches_here. }
  destruct (missing_slot_is_fatal TeamApp.instantiate TeamApp.template
              (TeamApp.recognizes TeamApp.at_team44_chat) TeamApp.serialize
              r (TeamApp.url ["team"; "44"; "chat"]) TeamApp.at_team44_chat
              (Node TeamApp.team44 [Node TeamApp.chat []])
              (Some (Node TeamApp.team33 [Node TeamApp.user11 []]))
              (registered [DEFAULT_OUTLET_NAME])
              [Some TeamApp.app; Some (TeamApp.instantiate TeamApp.team44)] s
              (Node TeamApp.chat [])
              eq_refl (or_intror (conj eq_refl W)) (or_introl eq_refl)
              eq_refl eq_refl eq_refl)
    as (_ & e & E1 & E2 & _ & _ & P).
  destruct (P [] [] _ _ _ eq_refl eq_refl) as [-> E3].
  repeat split; assumption.
Defined.

(** ** Navigating to where the router already is *)

Lemma list_eqb_refl {A} (eqb : A -> A -> bool) :
  (forall a, eqb a a = true) -> forall l, list_eqb eqb l l = true.
Proof.
  intros H l. induction l as [|a l IH]; simpl; [reflexivity|]. now rewrite H, IH.
Qed.

Lemma param_eqb_refl p : param_eqb p p = true.
Proof. unfold param_eqb. now rewrite !String.eqb_refl. Qed.

Lemma UrlSegment_eqb_refl u : UrlSegment_eqb u u = true.
Proof.
  unfold UrlSegment_eqb.
  rewrite String.eqb_refl, (list_eqb_refl _ param_eqb_refl). simpl.
  destruct (us_outlet u); simpl; [apply String.eqb_refl | reflexivity].
Qed.

Lemma equalSegments_refl a : equalSegments a (Some a) = true.
Proof.
  unfold equalSegments.
  now rewrite !String.eqb_refl, (list_eqb_refl _ UrlSegment_eqb_refl),
    (list_eqb_refl _ param_eqb_refl).
Qed.

Lemma lookup_app_absent {V} k (m m' : list (string * V)) :
  lookup k m = None -> lookup k (m ++ m') = lookup k m'.
Proof.
  induction m as [|[k' v'] m IH]; simpl; [reflexivity|].
  destruct (String.eqb k k'); [discriminate | exact IH].
Qed.

Lemma assign_absent {V} k (v : V) m :
  lookup k m = None -> assign k v m = m ++ [(k, v)].
Proof.
  induction m as [|[k' v'] m IH]; simpl; [reflexivity|].
  destruct (String.eqb k k'); [discriminate|]. intros L. now rewrite IH.
Qed.

Lemma fold_assign_distinct cs : forall acc,
  distinct (map (fun c => outlet (value c)) cs) = true ->
  (forall c, In c cs -> lookup (outlet (value c)) acc = None) ->
  fold_left (fun m c => assign (outlet (value c)) c m) cs acc
  = acc ++ map by_slot cs.
Proof.
  induction cs as [|c cs IH]; intros acc D A; simpl.
  - now rewrite app_nil_r.
  - simpl in D. apply andb_true_iff in D as [N D].
    apply negb_true_iff in N.
    rewrite (assign_absent _ _ _ (A c (or_introl eq_refl))).
    rewrite IH; [now rewrite <- app_assoc | exact D |].
    intros c' I. rewrite lookup_app_absent by (apply A; now right).
    simpl. destruct (String.eqb (outlet (value c')) (outlet (value c))) eqn:E;
      [|reflexivity].
    apply String.eqb_eq in E.
    assert (X : existsb (String.eqb (outlet (value c)))
                        (map (fun c0 => outlet (value c0)) cs) = true).
    { apply existsb_exists. exists (outlet (value c')). split.
      - now apply (in_map (fun c0 => outlet (value c0))).
      - rewrite E. apply String.eqb_refl. }
    congruence.
Qed.

Lemma prevChildrenOf_unique v cs :
  distinct (map (fun c => outlet (value c)) cs) = true ->
  prevChildrenOf (Some (Node v cs)) = map by_slot cs.
Proof.
  intros D. unfold prevChildrenOf. simpl.
  now rewrite fold_assign_distinct.
Qed.

Section SameTree.
Variable instantiate : RouteSegment -> Component.
Variable template : RouteSegment -> list string.

Lemma loadSegments_same c :
  inert instantiate template c ->
  forall om, exists r, forall components s,
    loadSegments_with instantiate template
      (loadChildSegments instantiate template c) c (Some c) om components s
    = (r, om, s).
Proof.
  intros H om. unfold loadSegments_with. simpl option_map.
  rewrite equalSegments_refl.
  destruct (getOutlet om (value c)) as [e|o] eqn:G.
  - now exists (Throw e).
  - destruct (getOutlet_inr _ _ _ G) as (m & -> & L).
    destruct (H (outletMap o)) as (r & Hr). exists r. intros components s.
    rewrite Hr. cbv beta iota. rewrite outlet_eta.
    now rewrite (put_in_same _ _ _ L).
Qed.

Lemma forEachChild_same cs :
  Forall (inert instantiate template) cs ->
  forall om, exists r remaining,
    (r = Normal -> remaining = []) /\
    forall components s,
      forEachChild
        (fun c p om' s' =>
           loadSegments_with instantiate template
             (loadChildSegments instantiate template c) c p om' components s')
        cs (map by_slot cs) om s
      = (r, remaining, om, s).
Proof.
  induction 1 as [|c cs Hc Hcs IH]; intros om.
  - exists Normal, []. now split.
  - destruct (loadSegments_same c Hc om) as (r1 & H1).
    destruct r1 as [|e].
    + destruct (IH om) as (r & remaining & N & Hr). exists r, remaining.
      split; [exact N|]. intros components s.
      simpl. now rewrite String.eqb_refl, H1, Hr.
    + exists (Throw e), (map by_slot (c :: cs)). split; [discriminate|].
      intros components s. simpl. now rewrite String.eqb_refl, H1.
Qed.

Lemma same_tree_inert n : unique_slots n = true -> inert instantiate template n.
Proof.
  induction n as [v cs IH] using TreeNode_nested_ind. intros U om.
  simpl in U. apply andb_true_iff in U as [D U].
  assert (Hcs : Forall (inert instantiate template) cs).
  { rewrite forallb_forall in U. rewrite Forall_forall in IH |- *.
    intros c I. apply IH; [exact I | now apply U]. }
  destruct (forEachChild_same cs Hcs om) as (r & remaining & N & H).
  exists r. intros components s.
  cbn [loadChildSegments]. rewrite (prevChildrenOf_unique v cs D), H.
  destruct r; [|reflexivity]. now rewrite (N eq_refl).
Qed.

End SameTree.

(** C3, as stated, fails: navigating to /team/33/user/11 while the router
    is there publishes a change (after a location update). *)
Lemma renavigation_counterexample :
  let r := TeamApp.router (TeamApp.team None) (TeamApp.user None) in
  let u := TeamApp.url ["team"; "33"; "user"; "11"] in
  let result := TeamApp.navigate (TeamApp.recognizes TeamApp.at_team33_user11)
                  TeamApp.serialize r u in
  TeamApp.recognizes TeamApp.at_team33_user11 u = Resolved (routeTree r) /\
  history (snd result) = [EvLocationGo "/team/33/user/11"; EvChange] /\
  In EvChange (history (snd result)).
Proof. repeat split. right. now left. Qed.

(** C3, amended. Navigating to an address that is recognized as the
    current accepted tree (sibling nodes binding distinct slots) mounts and
    unmounts nothing and leaves every outlet and the route tree as they
    are; unless the walk throws (a slot of the tree is not registered: the
    promise is rejected and nothing is called), the location is updated and
    one change notification is published. *)
Theorem renavigation_mounts_nothing instantiate template recognize serialize
    (r : Router) (url : UrlTree) :
  recognize url = Resolved (_prevTree r) ->
  unique_slots (rootNode (_prevTree r)) = true ->
  let result := _navigate instantiate template recognize serialize r url in
  routeTree (snd result) = routeTree r /\
  _routerOutletMap (snd result) = _routerOutletMap r /\
  ((exists e, fst result = Rejected e /\ history (snd result) = history r) \/
   (fst result = Resolved VUndefined /\
    history (snd result) = history r ++ [EvLocationGo (serialize url); EvChange])).
Proof.
  intros R U. cbv zeta.
  destruct (same_tree_inert instantiate template _ U (Some (_routerOutletMap r)))
    as (r0 & H).
  unfold _navigate. rewrite R. unfold load, canDeactivate. simpl.
  rewrite H. destruct r0 as [|e].
  - simpl. rewrite H. simpl. repeat split. now right.
  - simpl. repeat split. left. now exists e.
Qed.

Lemma renavigation_mounts_nothing_witness :
  let r := TeamApp.router (TeamApp.team None) (TeamApp.user None) in
  let u := TeamApp.url ["team"; "33"; "user"; "11"] in
  let result := TeamApp.navigate (TeamApp.recognizes TeamApp.at_team33_user11)
                  TeamApp.serialize r u in
  routeTree (snd result) = routeTree r /\
  _routerOutletMap (snd result) = _routerOutletMap r /\
  ((exists e, fst result = Rejected e /\ history (snd result) = history r) \/
   (fst result = Resolved VUndefined /\
    history (snd result) =
      history r ++ [EvLocationGo (TeamApp.serialize u); EvChange])).
Proof.
  exact (renavigation_mounts_nothing TeamApp.instantiate TeamApp.template
           (TeamApp.recognizes TeamApp.at_team33_user11) TeamApp.serialize
           (TeamApp.router (TeamApp.team None) (TeamApp.user None))
           (TeamApp.url ["team"; "33"; "user"; "11"]) eq_refl eq_refl).
Defined.

Lemma guards_before_mutations_witness :
  let r := TeamApp.router (TeamApp.team (Some TeamApp.consents))
                          (TeamApp.user (Some TeamApp.consents)) in
  let s := starting r TeamApp.at_team33 in
  let dry := dryRun TeamApp.instantiate TeamApp.template
               (Some (_routerOutletMap r)) TeamApp.app s in
  fst (fst dry) = Normal /\
  Forall (fun path => fst (checkCanDeactivatePath path (snd dry)) = Resolved true)
         (deactivations (snd dry)).
Proof.
  destruct (guards_before_mutations TeamApp.instantiate TeamApp.template
              (Some (TeamApp.mounted (TeamApp.team (Some TeamApp.consents))
                                     (TeamApp.user (Some TeamApp.consents))))
              TeamApp.app
              (starting (TeamApp.router (TeamApp.team (Some TeamApp.consents))
                                        (TeamApp.user (Some TeamApp.consents)))
                        TeamApp.at_team33))
    as (_ & per_path & calls & muts & _ & _ & _ & T1 & _ & _ & T2 & _ & Imp).
  apply Imp. left. intros ->.
  rewrite app_nil_r in T2. rewrite <- T1 in T2. discriminate T2.
Defined.

Lemma map_flat_map {A B C} (f : B -> C) (g : A -> list B) l :
  map f (flat_map g l) = flat_map (fun a => map f (g a)) l.
Proof.
  induction l as [|a l IH]; simpl; [reflexivity|]. now rewrite map_app, IH.
Qed.

Lemma forEachValue_collects (f : RouterOutlet -> LoadSegments ->
                                Completion * RouterOutlet * LoadSegments)
    (g : RouterOutlet -> list (list Obj)) m :
  Forall (fun kv => forall s v' s', f (snd kv) s = (Normal, v', s') ->
            performMutation s = false ->
            deactivations s' = deactivations s ++ g (snd kv) /\
            performMutation s' = false) m ->
  forall s m' s', forEachValue f m s = (Normal, m', s') ->
    performMutation s = false ->
    deactivations s' = deactivations s ++ flat_map (fun kv => g (snd kv)) m /\
    performMutation s' = false.
Proof.
  induction 1 as [|[k v] m Hv Hm IH]; simpl; intros s m' s' E M.
  - injection E as _ <-. now rewrite app_nil_r.
  - destruct (f v s) as [[[|e] v1] s1] eqn:Ev; [|discriminate E].
    destruct (Hv _ _ _ Ev M) as [D1 M1].
    destruct (forEachValue f m s1) as [[r2 m2] s2] eqn:Er.
    injection E as -> _ <-.
    destruct (IH _ _ _ Er M1) as [D2 M2].
    now rewrite D2, D1, app_assoc.
Qed.




(** * Further properties of the code *)

(** ** Registries *)

Lemma lookup_assign_eq {V} k (v : V) m : lookup k (assign k v m) = Some v.
Proof.
  induction m as [|[k' v'] m IH]; simpl.
  - now rewrite String.eqb_refl.
  - destruct (String.eqb k k') eqn:E; simpl; [now rewrite String.eqb_refl|].
    now rewrite E.
Qed.

Lemma lookup_assign_neq {V} k k' (v : V) m :
  k' <> k -> lookup k' (assign k v m) = lookup k' m.
Proof.
  intros N. induction m as [|[k0 v0] m IH]; simpl.
  - apply String.eqb_neq in N. now rewrite N.
  - destruct (String.eqb k k0) eqn:E; simpl.
    + apply String.eqb_eq in E. subst k0.
      apply String.eqb_neq in N. now rewrite N.
    + now rewrite IH.
Qed.

Lemma keys_assign_present {V} k (v : V) m :
  lookup k m <> None -> keys (assign k v m) = keys m.
Proof.
  unfold keys. induction m as [|[k0 v0] m IH]; simpl; [congruence|].
  destruct (String.eqb k k0) eqn:E; simpl.
  - apply String.eqb_eq in E. now subst.
  - intros L. now rewrite IH.
Qed.



(** ** The dictionary of previous children *)

Lemma find_over_app {A} (f : A -> bool) l l' :
  find f (l ++ l') = match find f l with Some x => Some x | None => find f l' end.
Proof.
  induction l as [|a l IH]; simpl; [reflexivity|]. now destruct (f a).
Qed.

Lemma lookup_fold_assign k cs : forall acc,
  lookup k (fold_left (fun m c => assign (outlet (value c)) c m) cs acc) =
  match last_in_slot k cs with
  | Some c => Some c
  | None => lookup k acc
  end.
Proof.
  unfold last_in_slot.
  induction cs as [|c cs IH]; intros acc; simpl; [reflexivity|].
  rewrite IH, find_over_app.
  destruct (find _ (rev cs)) as [c'|]; [reflexivity|]. simpl.
  destruct (String.eqb k (outlet (value c))) eqn:E.
  - apply String.eqb_eq in E. subst k. apply lookup_assign_eq.
  - apply lookup_assign_neq. intros ->. now rewrite String.eqb_refl in E.
Qed.

(** X2. Read under an ordinary name, the dictionary of previous children
    that [loadChildSegments] builds from children bound to ordinary slot
    names gives the last child of the previous node bound to that slot (a
    later child overwrites an earlier one of the same slot); with no
    previous node, or no child in that slot, it gives none.  (Under a name
    that every object inherits the program reads the inherited member
    instead.) *)
Theorem previous_child_of_slot (k : string)
    (prevNode : option (TreeNode RouteSegment)) :
  ordinary k = true ->
  (forall p, prevNode = Some p ->
     forallb (fun c => ordinary (outlet (value c))) (children p) = true) ->
  lookup k (prevChildrenOf prevNode) =
  match prevNode with
  | Some p => last_in_slot k (children p)
  | None => None
  end.
Proof.
  intros _ _.
  destruct prevNode as [p|]; [|reflexivity].
  unfold prevChildrenOf. rewrite lookup_fold_assign.
  now destruct (last_in_slot k (children p)).
Qed.

Lemma previous_child_of_slot_witness :
  lookup DEFAULT_OUTLET_NAME
         (prevChildrenOf
            (Some (Node TeamApp.rootSeg
                        [Node TeamApp.team33 []; Node TeamApp.chat [];
                         Node TeamApp.team44 []])))
  = Some (Node TeamApp.team44 []).
Proof.
  exact (previous_child_of_slot DEFAULT_OUTLET_NAME
           (Some (Node TeamApp.rootSeg
                       [Node TeamApp.team33 []; Node TeamApp.chat [];
                        Node TeamApp.team44 []]))
           eq_refl
           (fun p E =>
              match E in (_ = q)
                    return match q with
                           | Some p' =>
                               forallb (fun c => ordinary (outlet (value c)))
                                       (children p') = true
                           | None => True
                           end
              with eq_refl => eq_refl end)).
Defined.

(** ** More on guard chains *)

Lemma deactivateChain_unguarded ps : forall v s,
  guarded ps = [] -> deactivateChain ps (Resolved v) s = (Resolved v, s).
Proof.
  induction ps as [|p ps IH]; intros v s G; simpl; [reflexivity|].
  destruct p as [c|]; [|now apply IH].
  destruct (routerCanDeactivate c) as [g|] eqn:E.
  - rewrite (guarded_cons_guard _ _ ps E) in G. discriminate G.
  - rewrite (guarded_cons_plain _ ps E) in G. now apply IH.
Qed.

(** X3. A path none of whose components implements the guard (the empty
    path, or one of plain components and nulls) resolves to true and calls
    nothing. *)
Theorem unguarded_path_consents (path : list Obj) (s : LoadSegments) :
  guarded path = [] ->
  checkCanDeactivatePath path s = (Resolved true, s).
Proof.
  intros G. unfold checkCanDeactivatePath. apply deactivateChain_unguarded.
  now rewrite guarded_rev, G.
Qed.

Lemma unguarded_path_consents_witness :
  let s := TeamApp.fresh TeamApp.at_team33 TeamApp.at_team33_user11 in
  checkCanDeactivatePath [Some TeamApp.app; None; Some (TeamApp.team None)] s
  = (Resolved true, s).
Proof.
  exact (unguarded_path_consents
           [Some TeamApp.app; None; Some (TeamApp.team None)]
           (TeamApp.fresh TeamApp.at_team33 TeamApp.at_team33_user11) eq_refl).
Defined.

(** X4. A guard that rejects or never answers ends the chain: the guards
    of the components further out are not asked, and the chain settles
    exactly as that guard did.  The components further in, whose guards
    answered, have been asked before it, innermost first. *)
Theorem unsettled_guard_ends_chain (outer inner : list Obj) (c : Component)
    guard (s : LoadSegments) :
  routerCanDeactivate c = Some guard ->
  is_resolved (guard (prevTree s) (currTree s)) = false ->
  answers_settle (prevTree s) (currTree s) inner = true ->
  fst (checkCanDeactivatePath (outer ++ Some c :: inner) s)
  = guard (prevTree s) (currTree s) /\
  exists calls,
    trace (snd (checkCanDeactivatePath (outer ++ Some c :: inner) s))
    = trace s ++ calls /\
    asked calls = rev (guarded inner) ++ [cid c].
Proof.
  intros G U St. unfold checkCanDeactivatePath.
  rewrite rev_app_distr. simpl rev. rewrite <- app_assoc.
  rewrite deactivateChain_app.
  destruct (deactivateChain_calls (rev inner) (Resolved true) s eq_refl)
    as (calls & T & _ & Q).
  rewrite answers_settle_rev, guarded_rev in Q. destruct (Q St) as [A R].
  destruct (deactivateChain_asks (rev inner) (Resolved true) s) as (C & P & _).
  destruct (deactivateChain (rev inner) (Resolved true) s) as [a s1].
  simpl in T, R, C, P. destruct a as [v| |]; try discriminate R.
  simpl. rewrite G, C, P.
  rewrite deactivateChain_unresolved by exact U. simpl. split; [reflexivity|].
  exists (calls ++ [EvCanDeactivate (cid c) (guard (prevTree s) (currTree s))]).
  rewrite T, app_assoc. split; [reflexivity|].
  unfold asked in *. now rewrite flat_map_app, A.
Qed.

Lemma unsettled_guard_ends_chain_witness :
  let failing : option RouteTree -> RouteTree -> Promise bool :=
    fun _ _ => Rejected (Failure "busy") in
  let s := TeamApp.fresh TeamApp.at_team33 TeamApp.at_team33_user11 in
  let path := [Some (mkComponent 7 (Some TeamApp.vetoes) false)]
              ++ Some (TeamApp.team (Some failing))
              :: [Some (TeamApp.user (Some TeamApp.consents))] in
  fst (checkCanDeactivatePath path s) = Rejected (Failure "busy") /\
  exists calls,
    trace (snd (checkCanDeactivatePath path s)) = trace s ++ calls /\
    asked calls = rev (guarded [Some (TeamApp.user (Some TeamApp.consents))]) ++ [1].
Proof.
  exact (unsettled_guard_ends_chain
           [Some (mkComponent 7 (Some TeamApp.vetoes) false)]
           [Some (TeamApp.user (Some TeamApp.consents))]
           (TeamApp.team (Some (fun _ _ => Rejected (Failure "busy"))))
           (fun _ _ => Rejected (Failure "busy"))
           (TeamApp.fresh TeamApp.at_team33 TeamApp.at_team33_user11)
           eq_refl eq_refl eq_refl).
Defined.

(** X5. The value of a chain is the answer of the last guard asked: when
    the guards further in have all answered, the chain settles as the guard
    of the outermost component that implements one, whatever the inner
    answers were (components without the guard hand the value on). *)
Theorem chain_value_is_last_answer (plain inner : list Obj) (c : Component)
    guard (s : LoadSegments) :
  guarded plain = [] ->
  routerCanDeactivate c = Some guard ->
  answers_settle (prevTree s) (currTree s) inner = true ->
  fst (checkCanDeactivatePath (plain ++ Some c :: inner) s)
  = guard (prevTree s) (currTree s).
Proof.
  intros Pl G St. unfold checkCanDeactivatePath.
  rewrite rev_app_distr. simpl rev. rewrite <- app_assoc.
  rewrite deactivateChain_app.
  destruct (deactivateChain_calls (rev inner) (Resolved true) s eq_refl)
    as (calls & _ & _ & Q).
  rewrite answers_settle_rev in Q. destruct (Q St) as [_ R].
  destruct (deactivateChain_asks (rev inner) (Resolved true) s) as (C & P & _).
  destruct (deactivateChain (rev inner) (Resolved true) s) as [a s1].
  simpl in R, C, P. destruct a as [v| |]; try discriminate R.
  simpl. rewrite G, C, P.
  destruct (guard (prevTree s) (currTree s)) as [b|e|] eqn:A.
  - rewrite deactivateChain_unguarded; [reflexivity|].
    now rewrite guarded_rev, Pl.
  - now rewrite deactivateChain_unresolved.
  - now rewrite deactivateChain_unresolved.
Qed.

Lemma chain_value_is_last_answer_witness :
  fst (checkCanDeactivatePath
         ([Some TeamApp.app]
          ++ Some (TeamApp.team (Some TeamApp.consents))
          :: [Some (TeamApp.user (Some TeamApp.vetoes))])
         (TeamApp.fresh TeamApp.at_team33 TeamApp.at_team33_user11))
  = Resolved true.
Proof.
  exact (chain_value_is_last_answer [Some TeamApp.app]
           [Some (TeamApp.user (Some TeamApp.vetoes))]
           (TeamApp.team (Some TeamApp.consents)) TeamApp.consents
           (TeamApp.fresh TeamApp.at_team33 TeamApp.at_team33_user11)
           eq_refl eq_refl eq_refl).
Defined.

(** X6. For any path, [checkCanDeactivatePath] makes guard calls only; it
    asks the components that implement the guard from the innermost
    outwards, each at most once, stopping at most early; when every guard
    on the path answers with a boolean, all of them are asked. *)
Theorem guards_asked_innermost_first (path : list Obj) (s : LoadSegments) :
  exists calls,
    trace (snd (checkCanDeactivatePath path s)) = trace s ++ calls /\
    forallb is_guard calls = true /\
    (exists rest, rev (guarded path) = asked calls ++ rest) /\
    (answers_settle (prevTree s) (currTree s) path = true ->
     asked calls = rev (guarded path)).
Proof.
  unfold checkCanDeactivatePath.
  destruct (deactivateChain_calls (rev path) (Resolved true) s eq_refl)
    as (calls & T & P & Q).
  destruct (deactivateChain_asks (rev path) (Resolved true) s)
    as (_ & _ & _ & _ & calls' & T' & F').
  exists calls. rewrite guarded_rev in P, Q. rewrite answers_settle_rev in Q.
  rewrite T in T'. apply app_inv_head in T'. subst calls'.
  repeat split; try assumption. now apply Q.
Qed.

Lemma guards_asked_innermost_first_witness :
  let s := TeamApp.fresh TeamApp.at_team33 TeamApp.at_team33_user11 in
  let path := [Some TeamApp.app; Some (TeamApp.team (Some TeamApp.vetoes));
               None; Some (TeamApp.user (Some TeamApp.consents))] in
  exists calls,
    trace (snd (checkCanDeactivatePath path s)) = trace s ++ calls /\
    asked calls = [2; 1].
Proof.
  destruct (guards_asked_innermost_first
              [Some TeamApp.app; Some (TeamApp.team (Some TeamApp.vetoes));
               None; Some (TeamApp.user (Some TeamApp.consents))]
              (TeamApp.fresh TeamApp.at_team33 TeamApp.at_team33_user11))
    as (calls & T & _ & _ & A).
  exists calls. split; [exact T | exact (A eq_refl)].
Defined.

(** ** The check over all paths *)

Lemma all_consent_forallb values :
  all_consent values = forallb (fun v => v) values.
Proof.
  unfold all_consent. induction values as [|v values IH]; [reflexivity|].
  destruct v; simpl.
  - exact IH.
  - pose proof (filter_length_le (fun v => v) values) as L.
    apply Nat.eqb_neq. lia.
Qed.

Lemma all_resolved {A} (vs : list A) :
  PromiseWrapper_all (map Resolved vs) = Resolved vs.
Proof.
  unfold PromiseWrapper_all.
  assert (R : all_rejected (map (@Resolved A) vs) = None)
    by (induction vs; simpl; auto).
  assert (V : all_values (map (@Resolved A) vs) = Some vs).
  { induction vs as [|v vs IH]; simpl; [reflexivity|]. now rewrite IH. }
  now rewrite R, V.
Qed.

(** X7. When the dry run completes and the chain of every collected path
    resolves, [canDeactivate] resolves to the conjunction of the chains'
    values: true exactly when all of them are true, and true when no path
    was collected. *)
Theorem check_is_conjunction instantiate template
    (om : option RouterOutletMap) (rootComponent : Component)
    (s : LoadSegments) (values : list bool) :
  let dry := dryRun instantiate template om rootComponent s in
  fst (fst dry) = Normal ->
  fst (checkAll (deactivations (snd dry)) (snd dry)) = map Resolved values ->
  fst (fst (guardPhase instantiate template om rootComponent s))
  = Returned (Resolved (forallb (fun v => v) values)).
Proof.
  cbv zeta. intros N A. rewrite guardPhase_dryRun.
  destruct (dryRun instantiate template om rootComponent s) as [[r om1] s1].
  simpl in N, A. subst r. simpl.
  now rewrite A, all_resolved, <- all_consent_forallb.
Qed.

Lemma check_is_conjunction_witness :
  let r := TeamApp.router (TeamApp.team (Some TeamApp.consents))
                          (TeamApp.user (Some TeamApp.vetoes)) in
  fst (fst (guardPhase TeamApp.instantiate TeamApp.template
              (Some (_routerOutletMap r)) TeamApp.app
              (starting r TeamApp.at_team44_user11)))
  = Returned (Resolved (forallb (fun v => v) [false; true])).
Proof.
  exact (check_is_conjunction TeamApp.instantiate TeamApp.template
           (Some (TeamApp.mounted (TeamApp.team (Some TeamApp.consents))
                                  (TeamApp.user (Some TeamApp.vetoes))))
           TeamApp.app
           (starting (TeamApp.router (TeamApp.team (Some TeamApp.consents))
                                     (TeamApp.user (Some TeamApp.vetoes)))
                     TeamApp.at_team44_user11)
           [false; true] eq_refl eq_refl).
Defined.

(** ** Unloading, pass by pass *)

Lemma forEachValue_unloads (f : RouterOutlet -> LoadSegments ->
                               Completion * RouterOutlet * LoadSegments)
    (ev : RouterOutlet -> list Event) (g : RouterOutlet -> RouterOutlet) m :
  Forall (fun kv => forall s v' s', f (snd kv) s = (Normal, v', s') ->
            performMutation s = true ->
            trace s' = trace s ++ ev (snd kv) /\ v' = g (snd kv) /\
            performMutation s' = true) m ->
  forall s m' s', forEachValue f m s = (Normal, m', s') ->
    performMutation s = true ->
    trace s' = trace s ++ flat_map (fun kv => ev (snd kv)) m /\
    m' = map (fun kv => (fst kv, g (snd kv))) m /\
    performMutation s' = true.
Proof.
  induction 1 as [|[k v] m Hv Hm IH]; simpl; intros s m' s' E M.
  - injection E as <- <-. now rewrite app_nil_r.
  - destruct (f v s) as [[[|e] v1] s1] eqn:Ev; [|discriminate E].
    destruct (Hv _ _ _ Ev M) as (T1 & V1 & M1). simpl in V1.
    destruct (forEachValue f m s1) as [[r2 m2] s2] eqn:Er.
    injection E as -> <- <-.
    destruct (IH _ _ _ Er M1) as (T2 & V2 & M2).
    now rewrite T2, T1, app_assoc, V1, V2.
Qed.

Lemma unloads_app cs cs' : unloads (cs ++ cs') = unloads cs ++ unloads cs'.
Proof. apply map_app. Qed.

Lemma commit_unload_facts (o : RouterOutlet) : forall components s o' s',
  performMutation s = true ->
  unloadOutlet_present o components s = (Normal, o', s') ->
  trace s' = trace s ++ unloads (mounted_below o) /\
  o' = emptied o /\ isLoaded o' = false /\
  deactivations s' = deactivations s /\ performMutation s' = true.
Proof.
  induction o as [l | l m IH] using RouterOutlet_nested_ind;
    intros components s o' s' M E.
  - destruct l; simpl in E; [discriminate E|].
    injection E as <- <-. simpl. now rewrite app_nil_r.
  - destruct l as [c|]; simpl in E.
    2:{ injection E as <- <-. simpl. now rewrite app_nil_r. }
    destruct (forEachValue (fun v s0 => unloadOutlet_present v components s0) m s)
      as [[[|e] m1] s1] eqn:Em; [|discriminate E].
    assert (S1 : steps s s1).
    { eapply (forEachValue_steps
                (fun v s0 => unloadOutlet_present v components s0) m); [|exact Em].
      apply Forall_forall. intros kv _ s0 r v' s0' E0.
      exact (unloadOutlet_present_steps _ _ _ _ _ _ E0). }
    assert (H : trace s1 = trace s ++
                  flat_map (fun kv => unloads (mounted_below (snd kv))) m /\
                m1 = map (fun kv => (fst kv, emptied (snd kv))) m /\
                performMutation s1 = true).
    { apply (forEachValue_unloads
               (fun v s0 => unloadOutlet_present v components s0)
               (fun v => unloads (mounted_below v)) emptied m)
        with (s := s); [|exact Em | exact M].
      eapply Forall_impl; [|exact IH]. intros kv Hkv s0 v' s0' E0 M0.
      destruct (Hkv components s0 v' s0' M0 E0) as (T0 & V0 & _ & _ & M0').
      now repeat split. }
    destruct H as (T1 & V1 & M1). rewrite M1 in E. injection E as <- <-.
    simpl. rewrite T1, unloads_app. unfold unloads at 2.
    rewrite map_flat_map, <- app_assoc. subst m1. repeat split.
    + now rewrite (steps_commit_paths _ _ S1 M).
    + exact M1.
Qed.

(** X8. With mutation enabled, [unloadOutlet] on a loaded outlet unloads
    every component mounted in it and below it, the deepest first and the
    outlet's own last, each once; it collects no path; it leaves the outlet
    and the outlets below it empty with their registries in place. *)
Theorem commit_unload_empties (o : RouterOutlet) (components : list Obj)
    (s : LoadSegments) (o' : RouterOutlet) (s' : LoadSegments) :
  performMutation s = true ->
  unloadOutlet_present o components s = (Normal, o', s') ->
  trace s' = trace s ++ unloads (mounted_below o) /\
  o' = emptied o /\ isLoaded o' = false /\
  deactivations s' = deactivations s /\ performMutation s' = true.
Proof. apply commit_unload_facts. Qed.

Lemma commit_unload_empties_witness :
  let o := mkRouterOutlet (Some (TeamApp.team None))
             (Some [(DEFAULT_OUTLET_NAME,
                     mkRouterOutlet (Some (TeamApp.user None)) (Some []))]) in
  let s := TeamApp.fresh TeamApp.at_root TeamApp.at_team33_user11 in
  trace s ++ unloads (mounted_below o) = [EvUnload 2; EvUnload 1].
Proof.
  exact (eq_sym (proj1 (commit_unload_empties
           (mkRouterOutlet (Some (TeamApp.team None))
              (Some [(DEFAULT_OUTLET_NAME,
                      mkRouterOutlet (Some (TeamApp.user None)) (Some []))]))
           [Some TeamApp.app]
           (TeamApp.fresh TeamApp.at_root TeamApp.at_team33_user11)
           _ _ eq_refl eq_refl))).
Defined.

Lemma dry_unload_collects (o : RouterOutlet) : forall components s o' s',
  performMutation s = false ->
  unloadOutlet_present o components s = (Normal, o', s') ->
  deactivations s' =
    deactivations s ++ map (fun c => components ++ [Some c]) (mounted_below o) /\
  performMutation s' = false.
Proof.
  induction o as [l | l m IH] using RouterOutlet_nested_ind;
    intros components s o' s' M E.
  - destruct l; simpl in E; [discriminate E|].
    injection E as _ <-. simpl. now rewrite app_nil_r.
  - destruct l as [c|]; simpl in E.
    2:{ injection E as _ <-. simpl. now rewrite app_nil_r. }
    destruct (forEachValue (fun v s0 => unloadOutlet_present v components s0) m s)
      as [[[|e] m1] s1] eqn:Em; [|discriminate E].
    destruct (forEachValue_collects
                (fun v s0 => unloadOutlet_present v components s0)
                (fun v => map (fun c => components ++ [Some c]) (mounted_below v))
                m) with (s := s) (m' := m1) (s' := s1) as [D1 M1];
      [|exact Em | exact M |].
    { eapply Forall_impl; [|exact IH]. intros kv Hkv s0 v' s0' E0 M0.
      now apply (Hkv components s0 v' s0'). }
    rewrite M1 in E. injection E as _ <-.
    simpl. rewrite D1, map_app, map_flat_map, <- app_assoc. now split.
Qed.

(** X9. The two passes agree on an outlet: the components that the commit
    pass unloads in it are, one for one and in the same order, the
    components for which the dry run collected a path (each path ending in
    its component). *)
Theorem commit_unloads_what_dry_run_collected (o : RouterOutlet)
    (components : list Obj) (sd sc sd' sc' : LoadSegments) (od oc : RouterOutlet) :
  performMutation sd = false ->
  performMutation sc = true ->
  unloadOutlet_present o components sd = (Normal, od, sd') ->
  unloadOutlet_present o components sc = (Normal, oc, sc') ->
  exists cs,
    deactivations sd' =
      deactivations sd ++ map (fun c => components ++ [Some c]) cs /\
    trace sc' = trace sc ++ unloads cs /\
    trace sd' = trace sd /\ od = o.
Proof.
  intros Md Mc Ed Ec. exists (mounted_below o).
  destruct (dry_unload_collects _ _ _ _ _ Md Ed) as [D _].
  destruct (commit_unload_facts _ _ _ _ _ Mc Ec) as (T & _).
  destruct (unloadOutlet_present_steps _ _ _ _ _ _ Ed) as [S K].
  repeat split; try assumption.
  - now apply (steps_dry_trace _ _ S).
  - now apply K.
Qed.

Lemma commit_unloads_what_dry_run_collected_witness :
  let o := mkRouterOutlet (Some (TeamApp.team None))
             (Some [(DEFAULT_OUTLET_NAME,
                     mkRouterOutlet (Some (TeamApp.user None)) (Some []))]) in
  let sc := TeamApp.fresh TeamApp.at_root TeamApp.at_team33_user11 in
  let sd := set_performMutation false sc in
  exists cs,
    deactivations (snd (unloadOutlet_present o [Some TeamApp.app] sd)) =
      deactivations sd ++ map (fun c => [Some TeamApp.app] ++ [Some c]) cs /\
    trace (snd (unloadOutlet_present o [Some TeamApp.app] sc)) =
      trace sc ++ unloads cs /\
    trace (snd (unloadOutlet_present o [Some TeamApp.app] sd)) = trace sd /\
    snd (fst (unloadOutlet_present o [Some TeamApp.app] sd)) = o.
Proof.
  exact (commit_unloads_what_dry_run_collected
           (mkRouterOutlet (Some (TeamApp.team None))
              (Some [(DEFAULT_OUTLET_NAME,
                      mkRouterOutlet (Some (TeamApp.user None)) (Some []))]))
           [Some TeamApp.app]
           (set_performMutation false
              (TeamApp.fresh TeamApp.at_root TeamApp.at_team33_user11))
           (TeamApp.fresh TeamApp.at_root TeamApp.at_team33_user11)
           _ _ _ _ eq_refl eq_refl eq_refl eq_refl).
Defined.

(** ** One navigation, as a whole *)

Section NavigationFacts.
Variable instantiate : RouteSegment -> Component.
Variable template : RouteSegment -> list string.
Variable recognize : UrlTree -> Promise RouteTree.
Variable serialize : UrlTree -> string.

Lemma load_shape om rootComponent s :
  exists calls muts,
    trace (snd (load instantiate template om rootComponent s))
    = trace s ++ calls ++ muts /\
    forallb is_guard calls = true /\ forallb is_mutation muts = true /\
    match fst (fst (load instantiate template om rootComponent s)) with
    | Returned (Resolved true) => True
    | Returned (Rejected _) => True
    | _ => muts = []
    end.
Proof.
  pose proof (guardPhase_facts instantiate template om rootComponent s)
    as (_ & _ & _ & calls & T & F).
  rewrite load_guardPhase.
  destruct (guardPhase instantiate template om rootComponent s)
    as [[out om1] s1]. simpl in T.
  exists calls.
  destruct out as [[[|]| |]|].
  - destruct (commitRun_facts instantiate template om1 rootComponent s1)
      as (muts & Tm & Fm & _).
    exists muts.
    destruct (commitRun instantiate template om1 rootComponent s1)
      as [[[|e] om2] s3]; simpl in *; now rewrite Tm, T, app_assoc.
  - exists []. simpl. now rewrite app_nil_r.
  - exists []. simpl. now rewrite app_nil_r.
  - exists []. simpl. now rewrite app_nil_r.
  - exists []. simpl. now rewrite app_nil_r.
Qed.

End NavigationFacts.

(** X10. Whatever becomes of a navigation (recognition fails or hangs, a
    slot is missing, a guard vetoes, rejects or hangs, the commit throws or
    succeeds), the url tree of the router is the candidate's afterwards,
    and the root component is the one before. *)
Theorem url_tree_is_always_stored instantiate template recognize serialize
    (r : Router) (url : UrlTree) :
  let result := _navigate instantiate template recognize serialize r url in
  urlTree (snd result) = Some url /\
  _rootComponent (snd result) = _rootComponent r.
Proof.
  cbv zeta. unfold _navigate.
  destruct (recognize url) as [t|e|]; try (split; reflexivity).
  destruct (load instantiate template _ _ _) as [[[[[|]|e|]|e] om] s'];
    split; reflexivity.
Qed.

(** X11. The calls of one navigation come in three runs: guard calls, then
    mounts and unmounts, then the publication.  Either the navigation
    resolves, the accepted tree becomes the recognized one and the
    publication is one location update with the serialized candidate url
    followed by one change notification; or nothing is published and the
    accepted tree stays, and then mounts or unmounts have happened only if
    the navigation was rejected (a commit that threw). *)
Theorem navigation_trace_shape instantiate template recognize serialize
    (r : Router) (url : UrlTree) :
  let result := _navigate instantiate template recognize serialize r url in
  exists calls muts published,
    history (snd result) = history r ++ calls ++ muts ++ published /\
    forallb is_guard calls = true /\ forallb is_mutation muts = true /\
    ((published = [EvLocationGo (serialize url); EvChange] /\
      fst result = Resolved VUndefined /\
      recognize url = Resolved (routeTree (snd result)))
     \/
     (published = [] /\ routeTree (snd result) = routeTree r /\
      (muts <> [] -> exists e, fst result = Rejected e))).
Proof.
  cbv zeta. unfold _navigate.
  destruct (recognize url) as [t|e|] eqn:R.
  2,3: exists [], [], []; simpl; rewrite app_nil_r; repeat split;
       right; repeat split; intros N; now elim N.
  simpl.
  destruct (load_shape instantiate template (Some (_routerOutletMap r))
              (_rootComponent r)
              (new_LoadSegments t (Some (_prevTree r)) (history r)))
    as (calls & muts & T & Fc & Fm & Sh).
  destruct (load instantiate template _ _ _) as [[out om] s'].
  simpl in T, Sh. exists calls, muts.
  destruct out as [[[|]|e|]|e]; simpl.
  - exists [EvLocationGo (serialize url); EvChange].
    rewrite T, <- !app_assoc. repeat split; try assumption. now left.
  - exists []. rewrite T, app_nil_r. repeat split; try assumption.
    right. repeat split. intros N. now elim N.
  - exists []. rewrite T, app_nil_r. repeat split; try assumption.
    right. repeat split. intros _. now exists e.
  - exists []. rewrite T, app_nil_r. repeat split; try assumption.
    right. repeat split. intros N. now elim N.
  - exists []. rewrite T, app_nil_r. repeat split; try assumption.
    right. repeat split. intros _. now exists e.
Qed.

Lemma navigation_trace_shape_witness :
  let r := TeamApp.router (TeamApp.team None) (TeamApp.user None) in
  let u := TeamApp.url ["team"; "33"; "user"; "22"] in
  let result := TeamApp.navigate (TeamApp.recognizes TeamApp.at_team33_user22)
                  TeamApp.serialize r u in
  exists calls muts published,
    history (snd result) = history r ++ calls ++ muts ++ published /\
    forallb is_guard calls = true /\ forallb is_mutation muts = true /\
    published = [EvLocationGo "/team/33/user/22"; EvChange].
Proof.
  destruct (navigation_trace_shape TeamApp.instantiate TeamApp.template
              (TeamApp.recognizes TeamApp.at_team33_user22) TeamApp.serialize
              (TeamApp.router (TeamApp.team None) (TeamApp.user None))
              (TeamApp.url ["team"; "33"; "user"; "22"]))
    as (calls & muts & published & H & Fc & Fm & [(P & _) | (_ & T & _)]).
  - exists calls, muts, published. repeat split; assumption.
  - discriminate T.
Defined.

(** X12. A throw in the commit walk rejects the navigation with that
    error and nothing is rolled back or published: the accepted tree stays
    the previous one, while the outlets and the history are as the
    interrupted walk left them. *)
Theorem failed_commit_is_not_rolled_back instantiate template recognize
    serialize (r : Router) (url : UrlTree) (t : RouteTree) (e : Error) :
  recognize url = Resolved t ->
  let checked := guardPhase instantiate template (Some (_routerOutletMap r))
                   (_rootComponent r) (starting r t) in
  let commit := commitRun instantiate template (Some (_routerOutletMap r))
                  (_rootComponent r) (snd checked) in
  fst (fst checked) = Returned (Resolved true) ->
  fst (fst commit) = Throw e ->
  _navigate instantiate template recognize serialize r url =
  (Rejected e,
   mkRouter (_prevTree r) (Some url)
            (match snd (fst commit) with
             | Some m => m
             | None => _routerOutletMap r
             end)
            (_rootComponent r) (trace (snd commit))).
Proof.
  cbv zeta. intros R G C. unfold _navigate. rewrite R. simpl.
  fold (starting r t). rewrite load_guardPhase.
  pose proof (guardPhase_facts instantiate template (Some (_routerOutletMap r))
                (_rootComponent r) (starting r t)) as (K & _).
  destruct (guardPhase _ _ _ _ _) as [[out om1] s1]. simpl in *. subst.
  destruct (commitRun _ _ _ _ _) as [[rc om2] s3]. simpl in C. subst rc.
  reflexivity.
Qed.

Lemma failed_commit_is_not_rolled_back_witness :
  let r := TeamApp.router (TeamApp.team None) (TeamApp.user None) in
  let t := TeamApp.tree [Node TeamApp.team44 [Node TeamApp.chat []]] in
  let result := TeamApp.navigate (TeamApp.recognizes t) TeamApp.serialize r
                  (TeamApp.url ["team"; "44"; "chat"]) in
  fst result = Rejected (BaseException "Cannot find the outlet aux") /\
  routeTree (snd result) = TeamApp.at_team33_user11 /\
  history (snd result) = [EvUnload 2; EvUnload 1; EvLoad TeamApp.team44 12].
Proof.
  cbv zeta. unfold TeamApp.navigate.
  rewrite (failed_commit_is_not_rolled_back TeamApp.instantiate TeamApp.template
             (TeamApp.recognizes
                (TeamApp.tree [Node TeamApp.team44 [Node TeamApp.chat []]]))
             TeamApp.serialize
             (TeamApp.router (TeamApp.team None) (TeamApp.user None))
             (TeamApp.url ["team"; "44"; "chat"])
             (TeamApp.tree [Node TeamApp.team44 [Node TeamApp.chat []]])
             (BaseException "Cannot find the outlet aux")
             eq_refl eq_refl eq_refl).
  repeat split.
Defined.

(** ** The slots of a registry *)

Lemma same_keys_refl om : same_keys om om.
Proof. reflexivity. Qed.

Lemma same_keys_trans om1 om2 om3 :
  same_keys om1 om2 -> same_keys om2 om3 -> same_keys om1 om3.
Proof. unfold same_keys. congruence. Qed.

Lemma same_keys_put_in k o o' m :
  lookup k m = Some o -> same_keys (Some m) (put_in k o' (Some m)).
Proof.
  intros L. unfold same_keys, put_in. simpl.
  rewrite keys_assign_present; [reflexivity | congruence].
Qed.

Section Slots.
Variable instantiate : RouteSegment -> Component.
Variable template : RouteSegment -> list string.

Lemma loadSegments_keys rec c p om components s r om' s' :
  loadSegments_with instantiate template rec c p om components s = (r, om', s') ->
  same_keys om om'.
Proof.
  unfold loadSegments_with. intros E.
  destruct (getOutlet om (value c)) as [e|o] eqn:G.
  { injection E as _ <- _. apply same_keys_refl. }
  destruct (getOutlet_inr _ _ _ G) as (m & -> & L).
  destruct (equalSegments _ _).
  - destruct (rec p _ _ s) as [[r1 m1] s1]. injection E as _ <- _.
    now apply (same_keys_put_in _ o).
  - destruct (unloadOutlet_present o components s) as [[[|e] o1] s1].
    + destruct (performMutation s1).
      * destruct (loadNewSegment _ _ _ _ _ _) as [[inst o2] s2].
        destruct (rec p _ _ s2) as [[r3 m3] s3]. injection E as _ <- _.
        now apply (same_keys_put_in _ o).
      * injection E as _ <- _. now apply (same_keys_put_in _ o).
    + injection E as _ <- _. now apply (same_keys_put_in _ o).
Qed.

Lemma forEachChild_keys rec components cs : forall prevChildren om s r rem om' s',
  forEachChild
    (fun c p om0 s0 =>
       loadSegments_with instantiate template (rec c) c p om0 components s0)
    cs prevChildren om s = (r, rem, om', s') ->
  same_keys om om'.
Proof.
  induction cs as [|c cs IH]; simpl; intros prevChildren om s r rem om' s' E.
  - injection E as _ _ <- _. apply same_keys_refl.
  - destruct (loadSegments_with instantiate template (rec c) c _ om components s)
      as [[[|e] om1] s1] eqn:E1.
    + eapply same_keys_trans; [exact (loadSegments_keys _ _ _ _ _ _ _ _ _ E1)|].
      exact (IH _ _ _ _ _ _ _ E).
    + injection E as _ _ <- _. exact (loadSegments_keys _ _ _ _ _ _ _ _ _ E1).
Qed.

Lemma unloadRemaining_keys prevChildren components : forall om s r om' s',
  unloadRemaining prevChildren om components s = (r, om', s') ->
  same_keys om om'.
Proof.
  induction prevChildren as [|[k n] rest IH]; simpl; intros om s r om' s' E.
  - injection E as _ <- _. apply same_keys_refl.
  - destruct om as [m|]; [|injection E as _ <- _; apply same_keys_refl].
    assert (P : forall o', unloadOutlet (lookup k m) components s = o' ->
                same_keys (Some m) (Some (put k (snd (fst o')) m))).
    { intros o' <-. unfold same_keys, put. simpl.
      destruct (lookup k m) as [o|] eqn:L; simpl; [|reflexivity].
      destruct (unloadOutlet_present o components s) as [[r0 o0] s0]. simpl.
      rewrite keys_assign_present; [reflexivity | congruence]. }
    destruct (unloadOutlet (lookup k m) components s) as [[[|e] o1] s1] eqn:U.
    + eapply same_keys_trans; [exact (P _ eq_refl) | exact (IH _ _ _ _ _ E)].
    + injection E as _ <- _. exact (P _ eq_refl).
Qed.

Lemma loadChildSegments_keys node prevNode om components s r om' s' :
  loadChildSegments instantiate template node prevNode om components s
  = (r, om', s') ->
  same_keys om om'.
Proof.
  destruct node as [v cs]. simpl.
  destruct (forEachChild _ cs (prevChildrenOf prevNode) om s)
    as [[[[|e] rem] om1] s1] eqn:E1; intros E.
  - eapply same_keys_trans;
      [exact (forEachChild_keys _ _ _ _ _ _ _ _ _ _ E1)
      | exact (unloadRemaining_keys _ _ _ _ _ _ _ E)].
  - injection E as _ <- _. exact (forEachChild_keys _ _ _ _ _ _ _ _ _ _ E1).
Qed.

End Slots.

(** X13. A navigation never adds a slot to the root registry and never
    removes one: whatever its outcome, the registry holds the same slot
    names in the same order afterwards (only what the outlets hold may
    have changed). *)
Theorem navigation_keeps_slots instantiate template recognize serialize
    (r : Router) (url : UrlTree) :
  keys (_routerOutletMap
          (snd (_navigate instantiate template recognize serialize r url)))
  = keys (_routerOutletMap r).
Proof.
  unfold _navigate.
  destruct (recognize url) as [t|e|]; try reflexivity. simpl.
  rewrite load_guardPhase.
  pose proof (guardPhase_facts instantiate template (Some (_routerOutletMap r))
                (_rootComponent r)
                (new_LoadSegments t (Some (_prevTree r)) (history r)))
    as (K & _).
  destruct (guardPhase _ _ _ _ _) as [[out om1] s1]. simpl in K. subst om1.
  assert (C : forall s, same_keys (Some (_routerOutletMap r))
                (snd (fst (commitRun instantiate template
                             (Some (_routerOutletMap r)) (_rootComponent r) s)))).
  { intros s. unfold commitRun.
    destruct (loadChildSegments _ _ _ _ _ _ _) as [[rc om2] s3] eqn:E.
    exact (loadChildSegments_keys _ _ _ _ _ _ _ _ _ _ E). }
  destruct out as [[[|]| |]|]; try reflexivity.
  specialize (C s1).
  destruct (commitRun _ _ _ _ _) as [[[|e] om2] s3]; simpl in C;
    destruct om2 as [m2|]; try discriminate C; simpl;
    now injection C.
Qed.

(** ** Mounting where nothing is mounted *)

Lemma all_empty_lookup m k o :
  all_empty m = true -> lookup k m = Some o -> isLoaded o = false.
Proof.
  unfold all_empty. induction m as [|[k' v'] m IH]; simpl; [discriminate|].
  intros A. apply andb_true_iff in A as [A1 A2].
  destruct (String.eqb k k').
  - intros [= <-]. now apply negb_true_iff in A1.
  - now apply IH.
Qed.

Lemma all_empty_empty_at m cs : all_empty m = true -> empty_at (Some m) cs.
Proof.
  intros A c m' o _ [= <-] L. exact (all_empty_lookup _ _ _ A L).
Qed.

Lemma registered_fresh slots : forall k o,
  lookup k (registered slots) = Some o -> o = fresh_outlet.
Proof.
  unfold registered, registerOutlet.
  assert (G : forall acc,
             (forall k o, lookup k acc = Some o -> o = fresh_outlet) ->
             forall k o,
               lookup k (fold_left (fun m name => assign name fresh_outlet m)
                                   slots acc) = Some o -> o = fresh_outlet).
  { induction slots as [|name slots IH]; intros acc A k o; simpl; [apply A|].
    apply IH. intros k' o'.
    destruct (string_dec k' name) as [->|N].
    - rewrite lookup_assign_eq. now intros [= <-].
    - rewrite (lookup_assign_neq _ _ _ _ N). apply A. }
  apply G. intros k o. discriminate.
Qed.

Lemma distinct_head c cs :
  distinct (map (fun c0 => outlet (value c0)) (c :: cs)) = true ->
  (forall c', In c' cs -> outlet (value c') <> outlet (value c)) /\
  distinct (map (fun c0 => outlet (value c0)) cs) = true.
Proof.
  simpl. intros D. apply andb_true_iff in D as [N D]. split; [|exact D].
  intros c' I E. apply negb_true_iff in N.
  assert (X : existsb (String.eqb (outlet (value c)))
                      (map (fun c0 => outlet (value c0)) cs) = true).
  { apply existsb_exists. exists (outlet (value c')). split.
    - now apply (in_map (fun c0 => outlet (value c0))).
    - rewrite E. apply String.eqb_refl. }
  congruence.
Qed.

Lemma load_events_mount instantiate seg :
  forallb is_mount (load_events instantiate seg) = true.
Proof.
  unfold load_events. simpl. now destruct (routerOnActivate (instantiate seg)).
Qed.

Lemma mount_events_node instantiate n :
  mount_events instantiate n =
  load_events instantiate (value n)
  ++ flat_map (mount_events instantiate) (children n).
Proof. now destruct n. Qed.

Section FirstMount.
Variable instantiate : RouteSegment -> Component.
Variable template : RouteSegment -> list string.

Lemma loadNewSegment_events curr prev o s :
  loadNewSegment instantiate template curr prev o s =
  (instantiate curr,
   mkRouterOutlet (Some (instantiate curr)) (Some (registered (template curr))),
   mkLoadSegments (currTree s) (prevTree s) (deactivations s)
                  (performMutation s) (trace s ++ load_events instantiate curr)).
Proof.
  unfold loadNewSegment, load_events, RouterOutlet_load, record.
  destruct (routerOnActivate (instantiate curr)); simpl; [|reflexivity].
  now rewrite <- app_assoc.
Qed.

Lemma forEachChild_mounts components cs :
  Forall (mounts_below instantiate template) cs ->
  forall om s r rem om' s',
    distinct (map (fun c => outlet (value c)) cs) = true ->
    forallb unique_slots cs = true ->
    performMutation s = true ->
    empty_at om cs ->
    forEachChild
      (fun c p om0 s0 =>
         loadSegments_with instantiate template
           (loadChildSegments instantiate template c) c p om0 components s0)
      cs [] om s = (r, rem, om', s') ->
    exists evs,
      trace s' = trace s ++ evs /\ forallb is_mount evs = true /\
      (r = Normal -> evs = flat_map (mount_events instantiate) cs /\ rem = []) /\
      performMutation s' = true.
Proof.
  induction 1 as [|c cs Hc Hcs IH]; intros om s r rem om' s' D U M Em E.
  - simpl in E. inversion E; subst; clear E. exists [].
    rewrite app_nil_r. now repeat split.
  - simpl in E. simpl in U. apply andb_true_iff in U as [Uc Ucs].
    destruct (distinct_head _ _ D) as [Dc Dcs].
    unfold loadSegments_with in E at 1. simpl option_map in E.
    destruct (getOutlet om (value c)) as [e|o] eqn:G.
    { inversion E; subst; clear E. exists []. rewrite app_nil_r.
      repeat split; [discriminate | exact M]. }
    destruct (getOutlet_inr _ _ _ G) as (m & -> & L).
    assert (Eo : isLoaded o = false)
      by exact (Em c m o (or_introl eq_refl) eq_refl L).
    destruct o as [[x|] reg]; [discriminate Eo|].
    change (equalSegments (value c) None) with false in E.
    cbn [unloadOutlet_present] in E.
    rewrite M, loadNewSegment_events in E. cbn [outletMap _loaded] in E.
    set (s2 := mkLoadSegments (currTree s) (prevTree s) (deactivations s)
                 (performMutation s)
                 (trace s ++ load_events instantiate (value c))) in E.
    destruct (loadChildSegments instantiate template c None
                (Some (registered (template (value c))))
                (components ++ [Some (instantiate (value c))]) s2)
      as [[r3 m3] s3] eqn:E3.
    assert (Er : empty_at (Some (registered (template (value c)))) (children c)).
    { intros c' m' o' _ [= <-] L'. now rewrite (registered_fresh _ _ _ L'). }
    assert (M2 : performMutation s2 = true) by exact M.
    destruct (Hc None _ _ _ _ _ _ Uc M2 eq_refl Er E3)
      as (evc & Tc & Fc & Nc & Mc).
    unfold s2 in Tc. cbn [trace] in Tc.
    destruct r3 as [|e].
    + set (m1 := assign (outlet (value c))
                   (mkRouterOutlet (Some (instantiate (value c))) m3) m) in E.
      assert (Em1 : empty_at (put_in (outlet (value c))
                                (mkRouterOutlet (Some (instantiate (value c))) m3)
                                (Some m)) cs).
      { intros c' m' o' I [= <-] L'.
        rewrite (lookup_assign_neq _ _ _ _ (Dc c' I)) in L'.
        exact (Em c' m o' (or_intror I) eq_refl L'). }
      destruct (IH _ _ _ _ _ _ Dcs Ucs Mc Em1 E) as (evs & T & F & N & M').
      exists (load_events instantiate (value c) ++ evc ++ evs).
      rewrite T, Tc, <- !app_assoc.
      rewrite !forallb_app, load_events_mount, Fc, F.
      repeat split; try assumption.
      * destruct (N H) as [-> _]. rewrite (Nc eq_refl).
        cbn [flat_map]. now rewrite mount_events_node, <- app_assoc.
      * now destruct (N H).
    + inversion E; subst; clear E.
      exists (load_events instantiate (value c) ++ evc).
      rewrite Tc, <- !app_assoc.
      rewrite forallb_app, load_events_mount, Fc.
      repeat split; [discriminate | exact Mc].
Qed.

Lemma mounts_below_all n : mounts_below instantiate template n.
Proof.
  induction n as [v cs IH] using TreeNode_nested_ind.
  intros prevNode om components s r om' s' U M P Em E.
  simpl in U. apply andb_true_iff in U as [D U].
  simpl in E. rewrite P in E.
  destruct (forEachChild _ cs [] om s) as [[[r1 rem] om1] s1] eqn:E1.
  destruct (forEachChild_mounts components cs IH _ _ _ _ _ _ D U M Em E1)
    as (evs & T & F & N & M1).
  destruct r1 as [|e].
  - destruct (N eq_refl) as [-> ->]. simpl in E. inversion E; subst; clear E.
    exists (flat_map (mount_events instantiate) cs). now repeat split.
  - inversion E; subst; clear E. exists evs. repeat split; try assumption.
    discriminate.
Qed.

End FirstMount.

(** X14. With mutation enabled, below a candidate node that has no
    previous children to be paired with and whose registry holds only
    empty outlets (sibling nodes binding distinct slots), a walk that
    completes has mounted every node of the candidate subtree, parents
    before children and siblings in their order, each load followed by the
    activation hook of the new instance when it has one; nothing else was
    called. *)
Theorem first_mount_is_top_down instantiate template
    (n : TreeNode RouteSegment) (prevNode : option (TreeNode RouteSegment))
    (m : RouterOutletMap) (components : list Obj) (s : LoadSegments)
    (om' : option RouterOutletMap) (s' : LoadSegments) :
  unique_slots n = true ->
  performMutation s = true ->
  prevChildrenOf prevNode = [] ->
  all_empty m = true ->
  loadChildSegments instantiate template n prevNode (Some m) components s
  = (Normal, om', s') ->
  trace s' = trace s ++ flat_map (mount_events instantiate) (children n).
Proof.
  intros U M P A E.
  destruct (mounts_below_all instantiate template n prevNode (Some m)
              components s Normal om' s' U M P (all_empty_empty_at _ _ A) E)
    as (evs & T & _ & N & _).
  now rewrite T, (N eq_refl).
Qed.

Lemma first_mount_is_top_down_witness :
  let s := TeamApp.fresh TeamApp.at_team33_user11 TeamApp.at_root in
  let walked := loadChildSegments TeamApp.instantiate TeamApp.template
                  (rootNode TeamApp.at_team33_user11)
                  (Some (rootNode TeamApp.at_root))
                  (Some [(DEFAULT_OUTLET_NAME, fresh_outlet)])
                  [Some TeamApp.app] s in
  trace (snd walked) = [EvLoad TeamApp.team33 12; EvLoad TeamApp.user11 12].
Proof.
  exact (first_mount_is_top_down TeamApp.instantiate TeamApp.template
           (rootNode TeamApp.at_team33_user11) (Some (rootNode TeamApp.at_root))
           [(DEFAULT_OUTLET_NAME, fresh_outlet)] [Some TeamApp.app]
           (TeamApp.fresh TeamApp.at_team33_user11 TeamApp.at_root)
           _ _ eq_refl eq_refl eq_refl eq_refl eq_refl).
Defined.

(** ** The first navigation *)

Lemma prevChildrenOf_childless p :
  children p = [] -> prevChildrenOf (Some p) = [].
Proof. intros C. unfold prevChildrenOf. now rewrite C. Qed.

Section FirstNavigation.
Variable instantiate : RouteSegment -> Component.
Variable template : RouteSegment -> list string.

Lemma forEachChild_dry_empty rec components cs : forall om s r rem om' s',
  performMutation s = false ->
  empty_at om cs ->
  forEachChild
    (fun c p om0 s0 =>
       loadSegments_with instantiate template (rec c) c p om0 components s0)
    cs [] om s = (r, rem, om', s') ->
  om' = om /\ s' = s /\ (r = Normal -> rem = []).
Proof.
  induction cs as [|c cs IH]; intros om s r rem om' s' M Em E.
  - simpl in E. inversion E; subst. now repeat split.
  - simpl in E. unfold loadSegments_with in E at 1. simpl option_map in E.
    destruct (getOutlet om (value c)) as [e|o] eqn:G.
    { inversion E; subst. now repeat split. }
    destruct (getOutlet_inr _ _ _ G) as (m & -> & L).
    assert (Eo : isLoaded o = false)
      by exact (Em c m o (or_introl eq_refl) eq_refl L).
    destruct o as [[x|] reg]; [discriminate Eo|].
    change (equalSegments (value c) None) with false in E.
    cbn [unloadOutlet_present] in E. rewrite M in E.
    rewrite (put_in_same _ _ _ L) in E.
    apply (IH _ _ _ _ _ _ M) in E; [exact E|].
    intros c' m' o' I [= <-] L'. exact (Em c' m o' (or_intror I) eq_refl L').
Qed.

Lemma dryRun_from_empty m rootComponent s pt :
  prevTree s = Some pt ->
  children (rootNode pt) = [] ->
  all_empty m = true ->
  exists r, dryRun instantiate template (Some m) rootComponent s
            = (r, Some m, set_performMutation false s).
Proof.
  intros P C A. unfold dryRun. rewrite P. simpl option_map.
  destruct (rootNode (currTree s)) as [v cs]. cbn [loadChildSegments].
  rewrite (prevChildrenOf_childless _ C).
  destruct (forEachChild _ cs [] (Some m) (set_performMutation false s))
    as [[[r rem] om1] s1] eqn:E.
  destruct (forEachChild_dry_empty _ _ _ _ (set_performMutation false s)
              _ _ _ _ eq_refl (all_empty_empty_at _ cs A) E) as (-> & -> & N).
  destruct r as [|e].
  - rewrite (N eq_refl). now exists Normal.
  - now exists (Throw e).
Qed.

Variable recognize : UrlTree -> Promise RouteTree.
Variable serialize : UrlTree -> string.

Lemma navigate_from_empty (r : Router) (url : UrlTree) (t : RouteTree) :
  recognize url = Resolved t ->
  unique_slots (rootNode t) = true ->
  children (rootNode (_prevTree r)) = [] ->
  all_empty (_routerOutletMap r) = true ->
  let result := _navigate instantiate template recognize serialize r url in
  (fst result = Resolved VUndefined /\ routeTree (snd result) = t /\
   history (snd result) =
     history r ++ flat_map (mount_events instantiate) (children (rootNode t))
     ++ [EvLocationGo (serialize url); EvChange])
  \/
  (exists e evs,
     fst result = Rejected e /\ routeTree (snd result) = routeTree r /\
     history (snd result) = history r ++ evs /\ forallb is_mount evs = true).
Proof.
  intros R U C A. cbv zeta. unfold _navigate. rewrite R. simpl.
  rewrite load_guardPhase, guardPhase_dryRun.
  destruct (dryRun_from_empty (_routerOutletMap r) (_rootComponent r)
              (new_LoadSegments t (Some (_prevTree r)) (history r))
              (_prevTree r) eq_refl C A) as (r0 & ->).
  destruct r0 as [|e].
  2:{ right. exists e, []. simpl. rewrite app_nil_r. now repeat split. }
  simpl. unfold commitRun. simpl.
  set (s2 := set_performMutation true
               (set_performMutation false
                  (new_LoadSegments t (Some (_prevTree r)) (history r)))).
  destruct (loadChildSegments instantiate template (rootNode t)
              (Some (rootNode (_prevTree r))) (Some (_routerOutletMap r))
              [Some (_rootComponent r)] s2)
    as [[rc om2] s3] eqn:E.
  destruct (mounts_below_all instantiate template (rootNode t) _ _ _ s2 _ _ _
              U eq_refl (prevChildrenOf_childless _ C)
              (all_empty_empty_at _ _ A) E) as (evs & T & F & N & _).
  simpl in T. destruct rc as [|e].
  - left. simpl. rewrite T, (N eq_refl), <- app_assoc. now repeat split.
  - right. exists e, evs. simpl. now repeat split.
Qed.

End FirstNavigation.

(** X15. A navigation that starts from an accepted tree without children
    and a registry of empty outlets asks no guard and unloads nothing
    (sibling nodes of the candidate binding distinct slots).  Either it
    resolves, having mounted the whole candidate tree top-down and then
    published once; or it is rejected (a slot is missing), having at most
    mounted some nodes, with the accepted tree unchanged. *)
Theorem navigation_from_empty_only_mounts instantiate template recognize
    serialize (r : Router) (url : UrlTree) (t : RouteTree) :
  recognize url = Resolved t ->
  unique_slots (rootNode t) = true ->
  children (rootNode (_prevTree r)) = [] ->
  all_empty (_routerOutletMap r) = true ->
  let result := _navigate instantiate template recognize serialize r url in
  (fst result = Resolved VUndefined /\ routeTree (snd result) = t /\
   history (snd result) =
     history r ++ flat_map (mount_events instantiate) (children (rootNode t))
     ++ [EvLocationGo (serialize url); EvChange])
  \/
  (exists e evs,
     fst result = Rejected e /\ routeTree (snd result) = routeTree r /\
     history (snd result) = history r ++ evs /\ forallb is_mount evs = true).
Proof. apply navigate_from_empty. Qed.

Lemma navigation_from_empty_only_mounts_witness :
  let r := mkRouter TeamApp.at_root None
             [(DEFAULT_OUTLET_NAME, mkRouterOutlet None (Some []))]
             TeamApp.app [] in
  let result := TeamApp.navigate (TeamApp.recognizes TeamApp.at_team33_user11)
                  TeamApp.serialize r (TeamApp.url ["team"; "33"; "user"; "11"]) in
  history (snd result) =
    [EvLoad TeamApp.team33 12; EvLoad TeamApp.user11 12;
     EvLocationGo "/team/33/user/11"; EvChange].
Proof.
  destruct (navigation_from_empty_only_mounts TeamApp.instantiate
              TeamApp.template (TeamApp.recognizes TeamApp.at_team33_user11)
              TeamApp.serialize
              (mkRouter TeamApp.at_root None
                 [(DEFAULT_OUTLET_NAME, mkRouterOutlet None (Some []))]
                 TeamApp.app [])
              (TeamApp.url ["team"; "33"; "user"; "11"])
              TeamApp.at_team33_user11 eq_refl eq_refl eq_refl eq_refl)
    as [(_ & _ & H) | (e & evs & H & _)].
  - exact H.
  - discriminate H.
Defined.

(** X16. Constructing a router over a registry of empty outlets navigates
    once, from the initial tree, to the parsed current location: the url
    tree is the parsed location; when the location is recognized (sibling
    nodes binding distinct slots) the router has either mounted the
    recognized tree top-down, published once and accepted that tree, or
    kept the initial tree (a slot was missing); no guard was asked and
    nothing was unloaded. *)
Theorem construction_mounts_top_down instantiate template recognize serialize
    (parse : string -> UrlTree) (rootComponent : Component)
    (rootComponentType : string) (m : RouterOutletMap) (locationPath : string)
    (t : RouteTree) :
  recognize (parse locationPath) = Resolved t ->
  unique_slots (rootNode t) = true ->
  all_empty m = true ->
  let r := new_Router instantiate template recognize serialize parse
             rootComponent rootComponentType m locationPath in
  urlTree r = Some (parse locationPath) /\
  ((routeTree r = t /\
    history r = flat_map (mount_events instantiate) (children (rootNode t))
                ++ [EvLocationGo (serialize (parse locationPath)); EvChange])
   \/
   (routeTree r = _createInitialTree rootComponentType /\
    forallb is_mount (history r) = true)).
Proof.
  intros R U A. cbv zeta. unfold new_Router, navigateByUrl. split.
  - unfold _navigate. destruct (recognize (parse locationPath)) as [t'|e|];
      try reflexivity.
    now destruct (load instantiate template _ _ _) as [[[[[|]|e|]|e] om] s'].
  - destruct (navigate_from_empty instantiate template recognize serialize
                (mkRouter (_createInitialTree rootComponentType) None m
                          rootComponent [])
                (parse locationPath) t R U eq_refl A)
      as [(_ & T & H) | (e & evs & _ & T & H & F)].
    + left. split; [exact T | exact H].
    + right. split; [exact T|]. rewrite H. exact F.
Qed.

Lemma construction_mounts_top_down_witness :
  let r := new_Router TeamApp.instantiate TeamApp.template
             (TeamApp.recognizes TeamApp.at_team33_user11) TeamApp.serialize
             (fun _ => TeamApp.url ["team"; "33"; "user"; "11"])
             TeamApp.app "App" [(DEFAULT_OUTLET_NAME, fresh_outlet)]
             "/team/33/user/11" in
  urlTree r = Some (TeamApp.url ["team"; "33"; "user"; "11"]) /\
  routeTree r = TeamApp.at_team33_user11 /\
  history r = [EvLoad TeamApp.team33 12; EvLoad TeamApp.user11 12;
               EvLocationGo "/team/33/user/11"; EvChange].
Proof.
  destruct (construction_mounts_top_down TeamApp.instantiate TeamApp.template
              (TeamApp.recognizes TeamApp.at_team33_user11) TeamApp.serialize
              (fun _ => TeamApp.url ["team"; "33"; "user"; "11"])
              TeamApp.app "App" [(DEFAULT_OUTLET_NAME, fresh_outlet)]
              "/team/33/user/11" TeamApp.at_team33_user11
              eq_refl eq_refl eq_refl)
    as (Hu & [(Ht & Hh) | (Ht & _)]).
  - repeat split; assumption.
  - discriminate Ht.
Defined.

(** ** Reuse and replacement at one node *)

(** X17. A candidate leaf whose segment equals the segment of the previous
    node it is paired with (a leaf as well) is taken as reused whatever its
    outlet holds, an empty outlet included (as under a parent that has just
    been replaced): in either pass nothing is loaded, unloaded or
    collected, and the registry is as before. *)
Theorem equal_leaf_is_left_alone instantiate template
    (c pc : TreeNode RouteSegment) (m : RouterOutletMap) (o : RouterOutlet)
    (components : list Obj) (s : LoadSegments) :
  equalSegments (value c) (Some (value pc)) = true ->
  lookup (outlet (value c)) m = Some o ->
  children c = [] ->
  children pc = [] ->
  loadSegments instantiate template c (Some pc) (Some m) components s
  = (Normal, Some m, s).
Proof.
  intros Eq L Cc Cp. unfold loadSegments, loadSegments_with, getOutlet.
  rewrite L. simpl option_map. rewrite Eq.
  destruct c as [v cs]. simpl in Cc. subst cs. cbn [loadChildSegments forEachChild].
  rewrite (prevChildrenOf_childless _ Cp). cbn [unloadRemaining].
  rewrite outlet_eta. now rewrite (put_in_same _ _ _ L).
Qed.

Lemma equal_leaf_is_left_alone_witness :
  let m := [(DEFAULT_OUTLET_NAME, fresh_outlet)] in
  let s := TeamApp.fresh TeamApp.at_team44_user11 TeamApp.at_team33_user11 in
  loadSegments TeamApp.instantiate TeamApp.template
    (Node TeamApp.user11 []) (Some (Node TeamApp.user11 [])) (Some m)
    [Some TeamApp.app; Some (TeamApp.instantiate TeamApp.team44)] s
  = (Normal, Some m, s).
Proof.
  exact (equal_leaf_is_left_alone TeamApp.instantiate TeamApp.template
           (Node TeamApp.user11 []) (Node TeamApp.user11 [])
           [(DEFAULT_OUTLET_NAME, fresh_outlet)] fresh_outlet
           [Some TeamApp.app; Some (TeamApp.instantiate TeamApp.team44)]
           (TeamApp.fresh TeamApp.at_team44_user11 TeamApp.at_team33_user11)
           eq_refl eq_refl eq_refl eq_refl).
Defined.

(** X18. With mutation enabled, a candidate node whose segment differs
    from the previous one's is replaced in this order: first everything
    mounted in its outlet is unloaded, the deepest first; then the new
    instance is loaded (and its activation hook called); only then does the
    walk go below the node, where it only mounts and unmounts.  Afterwards
    the outlet holds the new instance. *)
Theorem replacement_unloads_then_loads instantiate template
    (c : TreeNode RouteSegment) (prevNode : option (TreeNode RouteSegment))
    (m : RouterOutletMap) (o : RouterOutlet) (components : list Obj)
    (s : LoadSegments) (r : Completion) (om' : option RouterOutletMap)
    (s' : LoadSegments) :
  performMutation s = true ->
  lookup (outlet (value c)) m = Some o ->
  equalSegments (value c) (option_map (@value RouteSegment) prevNode) = false ->
  fst (fst (unloadOutlet_present o components s)) = Normal ->
  loadSegments instantiate template c prevNode (Some m) components s
  = (r, om', s') ->
  exists evs below,
    trace s' = trace s ++ unloads (mounted_below o)
               ++ load_events instantiate (value c) ++ evs /\
    forallb is_mutation evs = true /\
    om' = Some (assign (outlet (value c))
                  (mkRouterOutlet (Some (instantiate (value c))) below) m).
Proof.
  intros M L Ne U E. unfold loadSegments, loadSegments_with, getOutlet in E.
  rewrite L, Ne in E.
  destruct (unloadOutlet_present o components s) as [[ru o1] s1] eqn:Eu.
  simpl in U. subst ru.
  destruct (commit_unload_facts _ _ _ _ _ M Eu) as (T1 & _ & _ & _ & M1).
  rewrite M1, loadNewSegment_events in E. cbn [outletMap _loaded] in E.
  destruct (loadChildSegments instantiate template c prevNode _ _ _)
    as [[r3 m3] s3] eqn:E3.
  destruct (loadChildSegments_spec _ _ _ _ _ _ _ _ _ _ E3)
    as [(_ & _ & _ & (evs & T3 & F3 & _) & _) _].
  cbn [trace] in T3. inversion E; subst; clear E.
  exists evs, m3. rewrite T3, T1, <- !app_assoc. now repeat split.
Qed.

Lemma replacement_unloads_then_loads_witness :
  let m := TeamApp.mounted (TeamApp.team None) (TeamApp.user None) in
  let s := TeamApp.fresh TeamApp.at_team44_user11 TeamApp.at_team33_user11 in
  let walked := loadSegments TeamApp.instantiate TeamApp.template
                  (Node TeamApp.team44 []) (Some (Node TeamApp.team33 []))
                  (Some m) [Some TeamApp.app] s in
  exists evs,
    trace (snd walked) =
      [EvUnload 2; EvUnload 1] ++ [EvLoad TeamApp.team44 12] ++ evs.
Proof.
  destruct (replacement_unloads_then_loads TeamApp.instantiate TeamApp.template
              (Node TeamApp.team44 []) (Some (Node TeamApp.team33 []))
              (TeamApp.mounted (TeamApp.team None) (TeamApp.user None))
              (mkRouterOutlet (Some (TeamApp.team None))
                 (Some [(DEFAULT_OUTLET_NAME,
                         mkRouterOutlet (Some (TeamApp.user None)) (Some []))]))
              [Some TeamApp.app]
              (TeamApp.fresh TeamApp.at_team44_user11 TeamApp.at_team33_user11)
              _ _ _ eq_refl eq_refl eq_refl eq_refl eq_refl)
    as (evs & below & T & _).
  exists evs. exact T.
Defined.

(** ** Where the collected paths start *)

Lemma collects_from_refl components s : collects_from components s s.
Proof. exists []. now rewrite app_nil_r. Qed.

Lemma collects_from_trans components s1 s2 s3 :
  collects_from components s1 s2 -> collects_from components s2 s3 ->
  collects_from components s1 s3.
Proof.
  intros (p1 & D1 & F1) (p2 & D2 & F2). exists (p1 ++ p2).
  rewrite D2, D1, app_assoc. split; [reflexivity|]. apply Forall_app. now split.
Qed.

Lemma collects_from_longer components x s s' :
  collects_from (components ++ [x]) s s' -> collects_from components s s'.
Proof.
  intros (p & D & F). exists p. split; [exact D|].
  eapply Forall_impl; [|exact F]. intros path (rest & c & ->).
  exists (x :: rest), c. now rewrite <- app_assoc.
Qed.

Lemma forEachValue_collects_from (f : RouterOutlet -> LoadSegments ->
                                     Completion * RouterOutlet * LoadSegments)
    components m :
  Forall (fun kv => forall s r v' s', f (snd kv) s = (r, v', s') ->
            collects_from components s s') m ->
  forall s r m' s', forEachValue f m s = (r, m', s') ->
    collects_from components s s'.
Proof.
  induction 1 as [|[k v] m Hv Hm IH]; simpl; intros s r m' s' E.
  - inversion E; subst. apply collects_from_refl.
  - destruct (f v s) as [[rv v1] s1] eqn:Ev.
    pose proof (Hv _ _ _ _ Ev) as C1. destruct rv.
    + destruct (forEachValue f m s1) as [[r2 m2] s2] eqn:Er.
      inversion E; subst.
      eapply collects_from_trans; [exact C1 | exact (IH _ _ _ _ Er)].
    + inversion E; subst. exact C1.
Qed.

Lemma unloadOutlet_present_collects o : forall components s r o' s',
  unloadOutlet_present o components s = (r, o', s') ->
  collects_from components s s'.
Proof.
  induction o as [l | l m IH] using RouterOutlet_nested_ind;
    intros components s r o' s' E.
  - destruct l; simpl in E; inversion E; subst; apply collects_from_refl.
  - destruct l as [c|]; simpl in E.
    2:{ inversion E; subst. apply collects_from_refl. }
    destruct (forEachValue (fun v s0 => unloadOutlet_present v components s0) m s)
      as [[r1 m1] s1] eqn:Em.
    assert (C1 : collects_from components s s1).
    { eapply forEachValue_collects_from; [|exact Em].
      eapply Forall_impl; [|exact IH]. intros kv Hkv; intros. eapply Hkv; eauto. }
    destruct r1.
    + destruct (performMutation s1); inversion E; subst; [exact C1|].
      eapply collects_from_trans; [exact C1|].
      exists [components ++ [Some c]]. split; [reflexivity|].
      constructor; [|constructor]. now exists [], c.
    + inversion E; subst. exact C1.
Qed.

Section PathsStart.
Variable instantiate : RouteSegment -> Component.
Variable template : RouteSegment -> list string.

Lemma loadNewSegment_paths curr prev o s :
  deactivations (snd (loadNewSegment instantiate template curr prev o s))
  = deactivations s.
Proof. now rewrite loadNewSegment_events. Qed.

Lemma loadSegments_collects rec c p components :
  (forall p' om' comps s r om1 s1, rec p' om' comps s = (r, om1, s1) ->
     collects_from comps s s1) ->
  forall om s r om1 s1,
    loadSegments_with instantiate template rec c p om components s = (r, om1, s1) ->
    collects_from components s s1.
Proof.
  intros Hrec om s r om1 s1 E. unfold loadSegments_with in E.
  destruct (getOutlet om (value c)) as [e|o].
  { inversion E; subst. apply collects_from_refl. }
  destruct (equalSegments _ _).
  - destruct (rec p (outletMap o) _ s) as [[r1 m1] s2] eqn:E1.
    inversion E; subst. eapply collects_from_longer. exact (Hrec _ _ _ _ _ _ _ E1).
  - destruct (unloadOutlet_present o components s) as [[ru o1] s2] eqn:Eu.
    pose proof (unloadOutlet_present_collects _ _ _ _ _ _ Eu) as C1.
    destruct ru.
    + destruct (performMutation s2).
      * pose proof (loadNewSegment_paths (value c)
                      (option_map (@value RouteSegment) p) o1 s2) as Dn.
        destruct (loadNewSegment _ _ _ _ _ _) as [[inst o2] s3].
        destruct (rec p (outletMap o2) _ s3) as [[r3 m3] s4] eqn:E3.
        inversion E; subst. eapply collects_from_trans; [exact C1|].
        pose proof (Hrec _ _ _ _ _ _ _ E3) as C3.
        apply collects_from_longer in C3. destruct C3 as (paths & D & F).
        exists paths. simpl in Dn. now rewrite D, Dn.
      * inversion E; subst. exact C1.
    + inversion E; subst. exact C1.
Qed.

Lemma unloadRemaining_collects prevChildren components : forall om s r om1 s1,
  unloadRemaining prevChildren om components s = (r, om1, s1) ->
  collects_from components s s1.
Proof.
  induction prevChildren as [|[k n] rest IH]; simpl; intros om s r om1 s1 E.
  - inversion E; subst. apply collects_from_refl.
  - destruct om as [m|]; [|inversion E; subst; apply collects_from_refl].
    assert (C1 : collects_from components s
                   (snd (unloadOutlet (lookup k m) components s))).
    { unfold unloadOutlet. destruct (lookup k m) as [o|];
        [|apply collects_from_refl].
      destruct (unloadOutlet_present o components s) as [[r0 o0] s0] eqn:Eu.
      exact (unloadOutlet_present_collects _ _ _ _ _ _ Eu). }
    destruct (unloadOutlet (lookup k m) components s) as [[[|e] o1] s2].
    + eapply collects_from_trans; [exact C1 | exact (IH _ _ _ _ _ E)].
    + inversion E; subst. exact C1.
Qed.

Lemma forEachChild_collects visit components cs :
  Forall (fun c => forall p om s r om1 s1, visit c p om s = (r, om1, s1) ->
            collects_from components s s1) cs ->
  forall prevChildren om s r rem om1 s1,
    forEachChild visit cs prevChildren om s = (r, rem, om1, s1) ->
    collects_from components s s1.
Proof.
  induction 1 as [|c cs Hc Hcs IH]; simpl; intros prevChildren om s r rem om1 s1 E.
  - inversion E; subst. apply collects_from_refl.
  - destruct (visit c _ om s) as [[[|e] om2] s2] eqn:Ev.
    + eapply collects_from_trans;
        [exact (Hc _ _ _ _ _ _ Ev) | exact (IH _ _ _ _ _ _ _ E)].
    + inversion E; subst. exact (Hc _ _ _ _ _ _ Ev).
Qed.

Lemma loadChildSegments_collects node : forall prevNode om components s r om1 s1,
  loadChildSegments instantiate template node prevNode om components s
  = (r, om1, s1) ->
  collects_from components s s1.
Proof.
  induction node as [v cs IH] using TreeNode_nested_ind.
  intros prevNode om components s r om1 s1 E. simpl in E.
  destruct (forEachChild _ cs (prevChildrenOf prevNode) om s)
    as [[[[|e] rem] om2] s2] eqn:E1.
  - eapply collects_from_trans;
      [|exact (unloadRemaining_collects _ _ _ _ _ _ _ E)].
    eapply forEachChild_collects; [|exact E1].
    eapply Forall_impl; [|exact IH]. intros c Hc p om0 s0 r0 om3 s3.
    apply loadSegments_collects. intros p' om' comps s4 r4 om4 s5.
    apply Hc.
  - inversion E; subst.
    eapply forEachChild_collects; [|exact E1].
    eapply Forall_impl; [|exact IH]. intros c Hc p om0 s0 r0 om3 s3.
    apply loadSegments_collects. intros p' om' comps s4 r4 om4 s5.
    apply Hc.
Qed.

End PathsStart.

(** X19. Every deactivation path that the dry run collects starts with
    the root component and ends with a component (one that is mounted in
    an outlet): the guard of the root component, if it has one, is on
    every path. *)
Theorem every_path_starts_at_root instantiate template
    (om : option RouterOutletMap) (rootComponent : Component)
    (s : LoadSegments) :
  exists paths,
    deactivations (snd (dryRun instantiate template om rootComponent s))
    = deactivations s ++ paths /\
    Forall (fun path => exists rest c,
              path = Some rootComponent :: rest ++ [Some c]) paths.
Proof.
  unfold dryRun.
  destruct (loadChildSegments _ _ _ _ om _ (set_performMutation false s))
    as [[r om1] s1] eqn:E.
  destruct (loadChildSegments_collects _ _ _ _ _ _ _ _ _ _ E) as (paths & D & F).
  exists paths. split; [exact D|].
  eapply Forall_impl; [|exact F]. intros path (rest & c & ->). now exists rest, c.
Qed.

(** X20. The dry run does not look below a replaced node: with mutation
    disabled, at a node whose segment differs from the previous one's (or
    that has no previous node), [loadSegments] gives the same result
    whatever the children of the candidate node are, so that a slot missing
    below such a node shows only in the commit pass. *)
Theorem dry_run_stops_at_replaced_node instantiate template
    (v : RouteSegment) (cs cs' : list (TreeNode RouteSegment))
    (prevNode : option (TreeNode RouteSegment)) (om : option RouterOutletMap)
    (components : list Obj) (s : LoadSegments) :
  performMutation s = false ->
  equalSegments v (option_map (@value RouteSegment) prevNode) = false ->
  loadSegments instantiate template (Node v cs) prevNode om components s
  = loadSegments instantiate template (Node v cs') prevNode om components s.
Proof.
  intros M Ne. unfold loadSegments, loadSegments_with.
  cbn [value]. rewrite Ne.
  destruct (getOutlet om v) as [e|o]; [reflexivity|].
  destruct (unloadOutlet_present o components s) as [[ru o1] s1] eqn:Eu.
  destruct (unloadOutlet_present_steps _ _ _ _ _ _ Eu) as [S _].
  rewrite (steps_mode _ _ S), M. reflexivity.
Qed.

Lemma dry_run_stops_at_replaced_node_witness :
  let m := TeamApp.mounted (TeamApp.team None) (TeamApp.user None) in
  let s := set_performMutation false
             (TeamApp.fresh TeamApp.at_team44_user11 TeamApp.at_team33_user11) in
  loadSegments TeamApp.instantiate TeamApp.template
    (Node TeamApp.team44 [Node TeamApp.chat []])
    (Some (Node TeamApp.team33 [Node TeamApp.user11 []])) (Some m)
    [Some TeamApp.app] s
  = loadSegments TeamApp.instantiate TeamApp.template
    (Node TeamApp.team44 [])
    (Some (Node TeamApp.team33 [Node TeamApp.user11 []])) (Some m)
    [Some TeamApp.app] s.
Proof.
  exact (dry_run_stops_at_replaced_node TeamApp.instantiate TeamApp.template
           TeamApp.team44 [Node TeamApp.chat []] []
           (Some (Node TeamApp.team33 [Node TeamApp.user11 []]))
           (Some (TeamApp.mounted (TeamApp.team None) (TeamApp.user None)))
           [Some TeamApp.app]
           (set_performMutation false
              (TeamApp.fresh TeamApp.at_team44_user11 TeamApp.at_team33_user11))
           eq_refl eq_refl).
Defined.
